(** * gdrip: the signature-analysis pipeline of [ripper.py]

    A shallow embedding of [ripper.py] and the properties of its argument
    splitter, namespace classifier, slot counter, record construction,
    exclusion policy and output aggregate.

    Python values are modelled as follows.
    - A [str] is a list of code points ([N]); [ord] is the identity.
    - A [bytearray] is a list of [N] below 256; [append] raises [ValueError]
      on anything else and [decode] is the strict UTF-8 decoder, raising
      [UnicodeDecodeError], a subclass of [ValueError].
    - A [dict] is an association list in insertion order; assigning to a key
      already present replaces its value in place.
    - An attribute declared with [field(init=False)] and no default is unset
      until assigned; reading it raises [AttributeError].
    - The demangler of [cpp_demangle] is outside the repository: it is a
      section variable, [None] standing for its [ValueError]. *)

From Stdlib Require Import String Ascii HexString DecimalString.
From Stdlib Require Import NArith ZArith Bool List FinFun Lia.
Import ListNotations.

(** ** Python strings *)

Module Py.

Definition char := N.
Definition str := list char.

(** [lit s] is the Python literal written [s] in the source (ASCII only). *)
Definition lit (s : string) : str :=
  map N_of_ascii (list_ascii_of_string s).

Definition str_eqb (a b : str) : bool :=
  if list_eq_dec N.eq_dec a b then true else false.

(** [s.startswith(p)] *)
Fixpoint startswith (p s : str) : bool :=
  match p, s with
  | [], _ => true
  | _ :: _, [] => false
  | a :: p', b :: s' => (a =? b)%N && startswith p' s'
  end.

(** [s.startswith((p1, p2, ...))] *)
Definition startswith_any (ps : list str) (s : str) : bool :=
  existsb (fun p => startswith p s) ps.

(** [sub in s] *)
Fixpoint contains (sub s : str) : bool :=
  startswith sub s ||
  match s with
  | [] => false
  | _ :: r => contains sub r
  end.

(** [s.split(sep)] for a non-empty [sep]: occurrences are taken from the
    left and do not overlap.  [skip] counts the characters of a separator
    still to be jumped over, [cur] is the current piece, reversed. *)
Fixpoint split_go (sep : str) (skip : nat) (cur : str) (s : str) : list str :=
  match s with
  | [] => [rev cur]
  | c :: r =>
      match skip with
      | S k => split_go sep k cur r
      | O =>
          if startswith sep s
          then rev cur :: split_go sep (length sep - 1) [] r
          else split_go sep 0 (c :: cur) r
      end
  end.

Definition split (sep s : str) : list str := split_go sep 0 [] s.

(** [s.split(c, 1)] for a one-character separator: at most one cut, at the
    first occurrence. *)
Fixpoint split1 (c : char) (s : str) : list str :=
  match s with
  | [] => [[]]
  | x :: r =>
      if (x =? c)%N then [[]; r]
      else match split1 c r with
           | h :: t => (x :: h) :: t
           | [] => [[x]]
           end
  end.

(** [s.rsplit(c, 1)]: at most one cut, at the last occurrence. *)
Definition rsplit1 (c : char) (s : str) : list str :=
  match split1 c (rev s) with
  | [a] => [rev a]
  | [a; b] => [rev b; rev a]
  | _ => [s]
  end.

(** [l[-1]] and [l[0]] on the non-empty lists that [split] returns. *)
Definition last_item (l : list str) : str := last l [].
Definition first_item (l : list str) : str := hd [] l.

Fixpoint dropwhile (f : char -> bool) (s : str) : str :=
  match s with
  | [] => []
  | c :: r => if f c then dropwhile f r else s
  end.

(** [s.lstrip(chars)] and [s.rstrip(chars)] *)
Definition lstrip_chars (cs : str) (s : str) : str :=
  dropwhile (fun c => existsb (N.eqb c) cs) s.
Definition rstrip_chars (cs : str) (s : str) : str :=
  rev (lstrip_chars cs (rev s)).

(** The characters [str.strip()] removes: CPython's [Py_UNICODE_ISSPACE]. *)
Definition isspace (c : char) : bool :=
  ((0x09 <=? c) && (c <=? 0x0D) || (0x1C <=? c) && (c <=? 0x20)
   || (c =? 0x85) || (c =? 0xA0) || (c =? 0x1680)
   || (0x2000 <=? c) && (c <=? 0x200A)
   || (c =? 0x2028) || (c =? 0x2029) || (c =? 0x202F) || (c =? 0x205F)
   || (c =? 0x3000))%N.

(** [s.strip()] *)
Definition strip (s : str) : str :=
  rev (dropwhile isspace (rev (dropwhile isspace s))).

(** [hex(n)] for [n >= 0] and ["%i" % n] *)
Definition hex (n : nat) : str := lit (HexString.of_N (N.of_nat n)).
Definition dec (n : nat) : str := lit (NilZero.string_of_uint (Nat.to_uint n)).

End Py.

Import Py.

(** ** Exceptions *)

Inductive exn := ValueError | UnicodeDecodeError | AttributeError.

(** [except ValueError] also catches the subclass [UnicodeDecodeError]. *)
Definition is_ValueError (e : exn) : bool :=
  match e with
  | ValueError | UnicodeDecodeError => true
  | AttributeError => false
  end.

Inductive result (A : Type) : Type :=
| Ok (a : A)
| Raise (e : exn).
Arguments Ok {A} a.
Arguments Raise {A} e.

Definition rbind {A B} (r : result A) (k : A -> result B) : result B :=
  match r with
  | Ok a => k a
  | Raise e => Raise e
  end.

Declare Scope py_scope.
Delimit Scope py_scope with py.
Notation "x <- r ;; k" := (rbind r (fun x => k))
  (at level 61, r at next level, right associativity) : py_scope.
Open Scope py_scope.

(** ** Byte buffers *)

Module Bytearray.

Definition bytearray := list N.

(** [b.append(x)]: [ValueError] unless [x] is in [range(0, 256)]. *)
Definition append (b : bytearray) (x : N) : result bytearray :=
  if (x <? 256)%N then Ok (b ++ [x]) else Raise ValueError.

Definition cont (x : N) : bool := ((0x80 <=? x) && (x <=? 0xBF))%N.
Definition between (lo x hi : N) : bool := ((lo <=? x) && (x <=? hi))%N.

(** Strict UTF-8, the well-formed byte sequences of the Unicode standard:
    no overlong form, no surrogate, nothing above U+10FFFF. *)
Fixpoint utf8 (bs : list N) : option str :=
  match bs with
  | [] => Some []
  | b0 :: r0 =>
      if (b0 <? 0x80)%N then option_map (cons b0) (utf8 r0)
      else if between 0xC2 b0 0xDF then
        match r0 with
        | b1 :: r1 =>
            if cont b1
            then option_map (cons ((b0 - 0xC0) * 64 + (b1 - 0x80))%N) (utf8 r1)
            else None
        | _ => None
        end
      else if between 0xE0 b0 0xEF then
        match r0 with
        | b1 :: b2 :: r2 =>
            if between (if (b0 =? 0xE0)%N then 0xA0 else 0x80) b1
                       (if (b0 =? 0xED)%N then 0x9F else 0xBF) && cont b2
            then option_map
                   (cons ((b0 - 0xE0) * 4096 + (b1 - 0x80) * 64 + (b2 - 0x80))%N)
                   (utf8 r2)
            else None
        | _ => None
        end
      else if between 0xF0 b0 0xF4 then
        match r0 with
        | b1 :: b2 :: b3 :: r3 =>
            if between (if (b0 =? 0xF0)%N then 0x90 else 0x80) b1
                       (if (b0 =? 0xF4)%N then 0x8F else 0xBF)
               && cont b2 && cont b3
            then option_map
                   (cons ((b0 - 0xF0) * 262144 + (b1 - 0x80) * 4096
                          + (b2 - 0x80) * 64 + (b3 - 0x80))%N)
                   (utf8 r3)
            else None
        | _ => None
        end
      else None
  end.

(** [b.decode()] *)
Definition decode (b : bytearray) : result str :=
  match utf8 b with
  | Some s => Ok s
  | None => Raise UnicodeDecodeError
  end.

End Bytearray.

(** ** [OffsetCounter] *)

Module OffsetCounter.

Record t := { i : nat; stack_val : nat }.

Definition init : t := {| i := 0; stack_val := 0 |}.

(** [next] returns the slot name and the counter as it leaves it. *)
Definition next (self : t) : str * t :=
  if i self <? 4 then
    (lit "r" ++ dec (i self), {| i := i self + 1; stack_val := stack_val self |})
  else
    (lit "STACK[" ++ hex (stack_val self * 4) ++ lit "]",
     {| i := i self; stack_val := stack_val self + 1 |}).

End OffsetCounter.

(** ** [split_cpp_args] *)

Module Splitter.

Record state := {
  args : list str;
  b : Bytearray.bytearray;
  followed_by : Z
}.

Definition ord (d : char) : N := d.

Definition lt : char := 60%N.
Definition gt : char := 62%N.
Definition comma : char := 44%N.

(** One turn of the [for d in data] loop. *)
Definition step (st : state) (d : char) : result state :=
  if (d =? lt)%N then
    b' <- Bytearray.append (b st) (ord d) ;;
    Ok {| args := args st; b := b'; followed_by := followed_by st + 1 |}
  else if (d =? gt)%N then
    b' <- Bytearray.append (b st) (ord d) ;;
    Ok {| args := args st; b := b'; followed_by := followed_by st - 1 |}
  else if (d =? comma)%N && (followed_by st =? 0)%Z then
    s <- Bytearray.decode (b st) ;;
    Ok {| args := args st ++ [strip s]; b := []; followed_by := followed_by st |}
  else
    b' <- Bytearray.append (b st) (ord d) ;;
    Ok {| args := args st; b := b'; followed_by := followed_by st |}.

Fixpoint loop (st : state) (data : str) : result state :=
  match data with
  | [] => Ok st
  | d :: rest => st' <- step st d ;; loop st' rest
  end.

End Splitter.

Definition split_cpp_args (data : str) : result (list str) :=
  st <- Splitter.loop
          {| Splitter.args := []; Splitter.b := []; Splitter.followed_by := 0 |}
          data ;;
  match Splitter.b st with
  | [] => Ok (Splitter.args st)
  | _ :: _ =>
      s <- Bytearray.decode (Splitter.b st) ;;
      Ok (Splitter.args st ++ [strip s])
  end.

(** ** [NamespaceEnum] *)

Inductive NamespaceEnum := NONE | STD | COCOS2D | PUGI.

(** The members, in the order of the class body. *)
Definition members : list NamespaceEnum := [NONE; STD; COCOS2D; PUGI].

Definition same_member (a b : NamespaceEnum) : bool :=
  match a, b with
  | NONE, NONE | STD, STD | COCOS2D, COCOS2D | PUGI, PUGI => true
  | _, _ => false
  end.

(** [auto()] gives the first member of an [IntEnum] the value 1 and every
    other member one more than the member before it. *)
Fixpoint auto (e : NamespaceEnum) (body : list NamespaceEnum) (next : Z) : Z :=
  match body with
  | [] => next
  | m :: rest => if same_member m e then next else auto e rest (next + 1)
  end.

Definition value (e : NamespaceEnum) : Z := auto e members 1.

Definition name (e : NamespaceEnum) : str :=
  match e with
  | NONE => lit "NONE"
  | STD => lit "STD"
  | COCOS2D => lit "COCOS2D"
  | PUGI => lit "PUGI"
  end.

(** [s.lower()], on the ASCII letters of member names. *)
Definition lower (s : str) : str :=
  map (fun c => if ((65 <=? c) && (c <=? 90))%N then (c + 32)%N else c) s.

(** ** Dictionaries, in insertion order *)

Definition dict := list (str * str).

(** [d[k] = v] *)
Fixpoint dict_set (d : dict) (k v : str) : dict :=
  match d with
  | [] => [(k, v)]
  | (k', v') :: r =>
      if str_eqb k' k then (k', v) :: r else (k', v') :: dict_set r k v
  end.

(** [d.update(other)] *)
Definition dict_update (d other : dict) : dict :=
  fold_left (fun acc kv => dict_set acc (fst kv) (snd kv)) other d.

(** [{counter.next(): a.strip() for a in args}], filling [d]; the counter is
    shared with the caller and comes back advanced. *)
Fixpoint slot_comprehension (counter : OffsetCounter.t) (args : list str)
    (d : dict) : dict * OffsetCounter.t :=
  match args with
  | [] => (d, counter)
  | a :: rest =>
      let (k, counter') := OffsetCounter.next counter in
      slot_comprehension counter' rest (dict_set d k (strip a))
  end.

(** ** State and exceptions together

    A method that assigns to [self] and may raise: the state reached when
    the exception leaves is kept, as the handler of a [try] sees it. *)

Definition M (S A : Type) : Type := S -> S * result A.

Definition ret {S A} (a : A) : M S A := fun s => (s, Ok a).
Definition bind {S A B} (m : M S A) (k : A -> M S B) : M S B :=
  fun s => match m s with
           | (s', Ok a) => k a s'
           | (s', Raise e) => (s', Raise e)
           end.
Definition get {S} : M S S := fun s => (s, Ok s).
Definition lift {S A} (r : result A) : M S A := fun s => (s, r).

(** [try: body except <catches>: handler] *)
Definition try_except {S} (body : M S unit) (catches : exn -> bool)
    (handler : M S unit) : M S unit :=
  fun s => match body s with
           | (s', Ok tt) => (s', Ok tt)
           | (s', Raise e) => if catches e then handler s' else (s', Raise e)
           end.

Notation "x <~ m ;; k" := (bind m (fun x => k))
  (at level 61, m at next level, right associativity) : py_scope.
Notation "m ;;; k" := (bind m (fun _ => k))
  (at level 61, right associativity) : py_scope.

(** A value that an [if] may test.  A bound method has neither [__bool__]
    nor [__len__]: its truth value is [True]. *)
Inductive pyobject :=
| PyBool (v : bool)
| BoundMethod (call : str -> result bool).

Definition truth (o : pyobject) : bool :=
  match o with
  | PyBool v => v
  | BoundMethod _ => true
  end.

(** ** [Function] *)

Record Function := {
  mangled_func : str;
  demangled_func : option str;
  args : list str;
  namespaceEnum : option NamespaceEnum;
  namespaceName : option str;
  arg_offsets : dict
}.

(** Reading an attribute that may still be unset. *)
Definition getattr {A} (a : option A) : result A :=
  match a with
  | Some v => Ok v
  | None => Raise AttributeError
  end.

Definition set_demangled_func (v : str) : M Function unit := fun self =>
  ({| mangled_func := mangled_func self; demangled_func := Some v;
      args := args self; namespaceEnum := namespaceEnum self;
      namespaceName := namespaceName self; arg_offsets := arg_offsets self |},
   Ok tt).
Definition set_args (v : list str) : M Function unit := fun self =>
  ({| mangled_func := mangled_func self; demangled_func := demangled_func self;
      args := v; namespaceEnum := namespaceEnum self;
      namespaceName := namespaceName self; arg_offsets := arg_offsets self |},
   Ok tt).
Definition set_namespaceEnum (v : NamespaceEnum) : M Function unit := fun self =>
  ({| mangled_func := mangled_func self; demangled_func := demangled_func self;
      args := args self; namespaceEnum := Some v;
      namespaceName := namespaceName self; arg_offsets := arg_offsets self |},
   Ok tt).
Definition set_namespaceName (v : str) : M Function unit := fun self =>
  ({| mangled_func := mangled_func self; demangled_func := demangled_func self;
      args := args self; namespaceEnum := namespaceEnum self;
      namespaceName := Some v; arg_offsets := arg_offsets self |},
   Ok tt).
Definition set_arg_offsets (v : dict) : M Function unit := fun self =>
  ({| mangled_func := mangled_func self; demangled_func := demangled_func self;
      args := args self; namespaceEnum := namespaceEnum self;
      namespaceName := namespaceName self; arg_offsets := v |},
   Ok tt).

Definition _find_namespace (func : str) : NamespaceEnum :=
  if startswith (lit "cococs2d::") func then COCOS2D
  else if startswith (lit "std::") func then STD
  else if startswith (lit "pugi::") func then PUGI
  else NONE.

Definition NamespaceEnum_eqb (a b : NamespaceEnum) : bool :=
  (value a =? value b)%Z.

Definition _is_this_call (self : Function) (func : str) : result bool :=
  ns <- getattr (namespaceEnum self) ;;
  if negb (NamespaceEnum_eqb ns NONE) || (2 <=? length (split (lit "::") func))
  then Ok true
  else Ok false.

Definition brace_open : char := 123%N.
Definition brace_close : char := 125%N.
Definition paren_open : char := 40%N.
Definition paren_close : char := 41%N.

Definition _demangle_arguments (func : str) : result (list str) :=
  if contains (lit "{") func then
    let func :=
      last_item (split1 Splitter.comma
                   (rstrip_chars (lit "}") (lstrip_chars (lit "{") func))) in
    let data :=
      first_item (rsplit1 paren_close (last_item (split1 paren_open func))) in
    split_cpp_args (rstrip_chars (lit ")") data)
  else if contains (lit "(") func then
    split_cpp_args
      (first_item (rsplit1 paren_close (last_item (split1 paren_open func))))
  else Ok [].

(** The test of the [if] is the attribute [self._is_this_call] itself: the
    method is not called. *)
Definition _make_possible_arg_offsets (self : Function) : dict :=
  let counter := OffsetCounter.init in
  let d : dict := [] in
  if truth (BoundMethod (_is_this_call self)) then
    let (k, counter) := OffsetCounter.next counter in
    let d := dict_set d k (lit "this") in
    let (comp, _) := slot_comprehension counter (args self) [] in
    dict_update d comp
  else
    fst (slot_comprehension counter (args self) []).

(** ** JSON values handed to the encoder *)

#[warning="-register-all"]
Inductive json :=
| JString (s : str)
| JInt (n : Z)
| JArray (items : list json)
| JObject (fields : list (str * json)).

Fixpoint json_get (k : str) (fields : list (str * json)) : option json :=
  match fields with
  | [] => None
  | (k', v) :: r => if str_eqb k' k then Some v else json_get k r
  end.

Definition field_of (j : json) (k : str) : option json :=
  match j with
  | JObject fields => json_get k fields
  | _ => None
  end.

Fixpoint sequence {A} (l : list (result A)) : result (list A) :=
  match l with
  | [] => Ok []
  | r :: rest => a <- r ;; t <- sequence rest ;; Ok (a :: t)
  end.

(** [asdict] on a record: every attribute is read, in declaration order;
    an [IntEnum] member is encoded as its integer value. *)
Definition asdict_Function (f : Function) : result json :=
  dn <- getattr (demangled_func f) ;;
  ne <- getattr (namespaceEnum f) ;;
  nn <- getattr (namespaceName f) ;;
  Ok (JObject
        [ (lit "mangled_func", JString (mangled_func f));
          (lit "demangled_func", JString dn);
          (lit "args", JArray (map JString (args f)));
          (lit "namespaceEnum", JInt (value ne));
          (lit "namespaceName", JString nn);
          (lit "arg_offsets",
           JObject (map (fun kv => (fst kv, JString (snd kv))) (arg_offsets f))) ]).

(** ** Record construction and the collection *)

Record ELF := {
  functions : list Function;
  version : str
}.

Section Pipeline.

(** The demangler of [cpp_demangle]; [None] is its [ValueError]. *)
Variable demangle : str -> option str.

Definition call_demangle (s : str) : result str :=
  match demangle s with
  | Some d => Ok d
  | None => Raise ValueError
  end.

Definition post_init_try : M Function unit :=
  self <~ get ;;
  d <~ lift (call_demangle (mangled_func self)) ;;
  set_demangled_func d ;;;
  self <~ get ;;
  df <~ lift (getattr (demangled_func self)) ;;
  a <~ lift (_demangle_arguments df) ;;
  set_args a ;;;
  self <~ get ;;
  df <~ lift (getattr (demangled_func self)) ;;
  set_namespaceEnum (_find_namespace df) ;;;
  self <~ get ;;
  ns <~ lift (getattr (namespaceEnum self)) ;;
  set_namespaceName (lower (name ns)) ;;;
  self <~ get ;;
  set_arg_offsets (_make_possible_arg_offsets self).

Definition post_init_except : M Function unit :=
  set_demangled_func (lit "FAILED") ;;;
  set_args [] ;;;
  set_namespaceEnum NONE ;;;
  set_namespaceName (lit "none").

Definition __attrs_post_init__ : M Function unit :=
  try_except post_init_try is_ValueError post_init_except.

(** The generated [__init__]: [mangled_func] from the argument, the two
    attributes with a factory from it, the others left unset, then
    [__attrs_post_init__]. *)
Definition attrs_init (mangled : str) : Function :=
  {| mangled_func := mangled; demangled_func := None; args := [];
     namespaceEnum := None; namespaceName := None; arg_offsets := [] |}.

Definition new_Function (mangled : str) : result Function :=
  match __attrs_post_init__ (attrs_init mangled) with
  | (self, Ok tt) => Ok self
  | (_, Raise e) => Raise e
  end.

Definition any (l : list bool) : bool := existsb (fun x => x) l.

(** [add_func] returns the collection as the call leaves it.  The [or] of
    the test reads [f.demangled_func] only when no argument matched. *)
Definition add_func (self : ELF) (func : str) : result ELF :=
  f <- new_Function func ;;
  skip <- (if any (map (startswith (lit "std::__exception_ptr")) (args f))
           then Ok true
           else
             dn <- getattr (demangled_func f) ;;
             Ok (startswith_any
                   [lit "typeinfo name for "; lit "typeinfo for ";
                    lit "{vtable"] dn)) ;;
  if skip then Ok self
  else Ok {| functions := functions self ++ [f]; version := version self |}.

(** The dictionary [as_json] passes to the encoder. *)
Definition as_json (self : ELF) : result json :=
  fs <- sequence (map asdict_Function (functions self)) ;;
  Ok (JObject
        [ (lit "functions", JArray fs);
          (lit "total_functions", JInt (Z.of_nat (length (functions self))));
          (lit "gd-version", JString (version self)) ]).

(** The loop of [cli] over the symbol names, in table order. *)
Fixpoint add_symbols (elf : ELF) (names : list str) : result ELF :=
  match names with
  | [] => Ok elf
  | s :: rest =>
      if startswith (lit "_Z") s
      then elf' <- add_func elf s ;; add_symbols elf' rest
      else add_symbols elf rest
  end.

Definition cli (names : list str) (version : str) : result json :=
  elf <- add_symbols {| functions := []; version := version |} names ;;
  as_json elf.

End Pipeline.

(** ** A demangler for the examples

    What the demangler prints for four names, and its rejection of every
    other; the last two are functions taking a class whose name is the
    single character U+00E9, respectively U+0100. *)
Definition sample_demangle (s : str) : option str :=
  if str_eqb s (lit "_Z3fooi") then Some (lit "foo(int)")
  else if str_eqb s (lit "_ZN7cococs2d9SomeClass6methodEi")
  then Some (lit "cococs2d::SomeClass::method(int)")
  else if str_eqb s (lit "_Z1f2" ++ [233%N])
  then Some (lit "f(" ++ [233%N] ++ lit ")")
  else if str_eqb s (lit "_Z1g2" ++ [256%N])
  then Some (lit "g(" ++ [256%N] ++ lit ")")
  else None.

(** * Vocabulary of the properties *)

(** ** Namespaces *)

(** The historical prefix list, in the order the classifier tries it. *)
Definition namespace_prefixes : list (str * NamespaceEnum) :=
  [ (lit "cococs2d::", COCOS2D); (lit "std::", STD); (lit "pugi::", PUGI) ].

Fixpoint first_match (table : list (str * NamespaceEnum)) (s : str)
    : NamespaceEnum :=
  match table with
  | [] => NONE
  | (p, tag) :: rest => if startswith p s then tag else first_match rest s
  end.

(** ** Slots *)

(** The name of the [n]-th slot (counted from 0), as the layout describes
    it: four registers, then the stack in steps of four bytes. *)
Definition slot_name (n : nat) : str :=
  if n <? 4 then lit "r" ++ dec n
  else lit "STACK[" ++ hex (4 * (n - 4)) ++ lit "]".

(** The counter after [n] calls of [next]. *)
Definition counter_at (n : nat) : OffsetCounter.t :=
  {| OffsetCounter.i := Nat.min n 4; OffsetCounter.stack_val := n - 4 |}.

(** The names given by [n] successive calls of [next]. *)
Fixpoint issue (n : nat) (c : OffsetCounter.t) : list str :=
  match n with
  | O => []
  | S k => let (s, c') := OffsetCounter.next c in s :: issue k c'
  end.

(** ** Records *)

(** The record that the handler of [__attrs_post_init__] leaves. *)
Definition failure_record (mangled : str) : Function :=
  {| mangled_func := mangled; demangled_func := Some (lit "FAILED");
     args := []; namespaceEnum := Some NONE;
     namespaceName := Some (lit "none"); arg_offsets := [] |}.

(** The record that the [try] block leaves when nothing is raised. *)
Definition success_record (mangled sig : str) (a : list str) : Function :=
  {| mangled_func := mangled; demangled_func := Some sig; args := a;
     namespaceEnum := Some (_find_namespace sig);
     namespaceName := Some (lower (name (_find_namespace sig)));
     arg_offsets :=
       (lit "r0", lit "this") ::
         combine (map slot_name (seq 1 (length a))) (map strip a) |}.

(** The record as an exception raised by the argument extraction finds it:
    only the demangled signature has been stored. *)
Definition interrupted_record (mangled sig : str) : Function :=
  {| mangled_func := mangled; demangled_func := Some sig; args := [];
     namespaceEnum := None; namespaceName := None; arg_offsets := [] |}.

(** ** Exclusion *)

Definition begins_with (p s : str) : Prop := exists rest, s = p ++ rest.

(** The exclusion policy, in the words of its description. *)
Definition rejected (f : Function) : Prop :=
  (exists a, In a (args f) /\ begins_with (lit "std::__exception_ptr") a) \/
  (exists dn, demangled_func f = Some dn /\
     (begins_with (lit "typeinfo name for ") dn \/
      begins_with (lit "typeinfo for ") dn \/
      begins_with (lit "{vtable") dn)).

Definition rejectedb (f : Function) : bool :=
  existsb (startswith (lit "std::__exception_ptr")) (args f) ||
  match demangled_func f with
  | Some dn =>
      startswith (lit "typeinfo name for ") dn ||
      startswith (lit "typeinfo for ") dn ||
      startswith (lit "{vtable") dn
  | None => false
  end.

(** The record that construction returns for a mangled name. *)
Definition record_of (demangle : str -> option str) (mangled : str)
    : Function :=
  match demangle mangled with
  | None => failure_record mangled
  | Some sig =>
      match _demangle_arguments sig with
      | Raise _ => failure_record mangled
      | Ok a => success_record mangled sig a
      end
  end.

(** A record with every attribute assigned and a name that agrees with its
    tag. *)
Definition constructed (f : Function) : Prop :=
  exists dn ns,
    demangled_func f = Some dn /\ namespaceEnum f = Some ns /\
    namespaceName f = Some (lower (name ns)).

(** ** The aggregate *)

(** The position of a tag in the declaration of the enumeration, from 1. *)
Definition ordinal (ns : NamespaceEnum) : Z :=
  match ns with
  | NONE => 1
  | STD => 2
  | COCOS2D => 3
  | PUGI => 4
  end.

Definition lowercase_name (ns : NamespaceEnum) : str :=
  match ns with
  | NONE => lit "none"
  | STD => lit "std"
  | COCOS2D => lit "cocos2d"
  | PUGI => lit "pugi"
  end.

(** What the aggregate says of one record. *)
Definition describes (f : Function) (item : json) : Prop :=
  exists ns,
    namespaceEnum f = Some ns /\
    field_of item (lit "mangled_func") = Some (JString (mangled_func f)) /\
    field_of item (lit "namespaceEnum") = Some (JInt (ordinal ns)) /\
    field_of item (lit "namespaceName") = Some (JString (lowercase_name ns)).

(** ** Pieces of an argument list *)

(** The nesting depth after one more character. *)
Definition bump (depth : Z) (c : char) : Z :=
  if (c =? Splitter.lt)%N then depth + 1
  else if (c =? Splitter.gt)%N then depth - 1
  else depth.

(** The nesting depth reached at the end of [s], entered at [depth]. *)
Fixpoint depth_after (depth : Z) (s : str) : Z :=
  match s with
  | [] => depth
  | c :: r => depth_after (bump depth c) r
  end.

(** [s], read from nesting depth [depth], has no comma at depth 0. *)
Definition no_top_comma (depth : Z) (s : str) : Prop :=
  forall pre post, s = pre ++ Splitter.comma :: post ->
                   depth_after depth pre <> 0%Z.

(** [Fields depth s fs]: [fs] are the pieces of [s] between its commas at
    nesting depth 0, [s] being entered at depth [depth]. *)
Inductive Fields : Z -> str -> list str -> Prop :=
| Fields_last (depth : Z) (s : str) :
    no_top_comma depth s -> Fields depth s [s]
| Fields_cut (depth : Z) (f rest : str) (fs : list str) :
    no_top_comma depth f ->
    depth_after depth f = 0%Z ->
    Fields 0 rest fs ->
    Fields depth (f ++ Splitter.comma :: rest) (f :: fs).

(** The same pieces, computed. *)
Fixpoint top_level_fields (depth : Z) (s : str) : list str :=
  match s with
  | [] => [[]]
  | c :: r =>
      if (c =? Splitter.comma)%N && (depth =? 0)%Z
      then [] :: top_level_fields depth r
      else match top_level_fields (bump depth c) r with
           | f :: fs => (c :: f) :: fs
           | [] => [[c]]
           end
  end.

(** The last piece is kept only if it is not empty. *)
Definition drop_empty_last (fs : list str) : list str :=
  match last fs [] with
  | [] => removelast fs
  | _ :: _ => fs
  end.

(** The result the description of the splitter gives. *)
Definition trimmed_fields (data : str) : list str :=
  map strip (drop_empty_last (top_level_fields 0 data)).

Definition ascii_only (s : str) : Prop := Forall (fun c => (c < 128)%N) s.

(** The current piece [b] put in front of the pieces still to come. *)
Definition prepend (b : str) (fs : list str) : list str :=
  match fs with
  | f :: r => (b ++ f) :: r
  | [] => [b]
  end.

(** ** The brace notation, as described *)

(** The description's reading of the brace notation: one brace off each
    end, the text after the first comma at nesting depth 0, then the
    extraction that signatures without braces get. *)
Definition strip_outer_braces (s : str) : str :=
  let s := match s with
           | c :: r => if (c =? brace_open)%N then r else s
           | [] => []
           end in
  match rev s with
  | c :: r => if (c =? brace_close)%N then rev r else s
  | [] => []
  end.

Definition after_first_top_level_comma (s : str) : str :=
  match top_level_fields 0 s with
  | f :: _ :: _ => skipn (S (length f)) s
  | _ => s
  end.

Definition normal_extraction (func : str) : result (list str) :=
  if contains (lit "(") func then
    split_cpp_args
      (first_item (rsplit1 paren_close (last_item (split1 paren_open func))))
  else Ok [].

Definition described_brace_arguments (func : str) : result (list str) :=
  normal_extraction (after_first_top_level_comma (strip_outer_braces func)).

(** A virtual override thunk, as the demangler prints it. *)
Definition thunk_signature : str :=
  lit "{virtual override thunk({offset(-8)}, Foo::bar(int))}".

(** ** Further vocabulary *)

(** [sub] occurs in [s]. *)
Definition occurs_in (sub s : str) : Prop :=
  exists pre post, s = pre ++ sub ++ post.

(** [d.get(k)] *)
Fixpoint dict_get (d : dict) (k : str) : option str :=
  match d with
  | [] => None
  | (k', v) :: r => if str_eqb k' k then Some v else dict_get r k
  end.

(** The counter after [n] more calls of [next]. *)
Fixpoint advance (n : nat) (c : OffsetCounter.t) : OffsetCounter.t :=
  match n with
  | O => c
  | S k => advance k (snd (OffsetCounter.next c))
  end.

(** No angle bracket in [s]. *)
Definition bracket_free (s : str) : Prop :=
  ~ In Splitter.lt s /\ ~ In Splitter.gt s.

(** Every attribute of the record has been assigned. *)
Definition populated (f : Function) : Prop :=
  demangled_func f <> None /\ namespaceEnum f <> None /\
  namespaceName f <> None.

(** ** The loops of [cli] over the sections and their symbols *)

(** A section as [cli] reads it: its [symboltable] attribute when it has
    one, taken as the names of the symbols in table order. *)
Definition elf_section := option (list str).

(** The names that reach [add_func]. *)
Definition candidates (sections : list elf_section) : list str :=
  concat (map (fun sec => match sec with Some table => table | None => [] end)
              sections).

Section Sections.

Variable demangle : str -> option str.

Fixpoint add_sections (elf : ELF) (sections : list elf_section)
    : result ELF :=
  match sections with
  | [] => Ok elf
  | Some table :: rest =>
      elf' <- add_symbols demangle elf table ;; add_sections elf' rest
  | None :: rest => add_sections elf rest
  end.

Definition cli_sections (sections : list elf_section) (version : str)
    : result json :=
  elf <- add_sections {| functions := []; version := version |} sections ;;
  as_json elf.

End Sections.

(** * Properties *)

(** ** Strings *)

Section StringFacts.

Lemma str_eqb_eq (a b : str) : str_eqb a b = true <-> a = b.
Proof.
  unfold str_eqb. destruct (list_eq_dec N.eq_dec a b); split; congruence.
Qed.

Lemma str_eqb_neq (a b : str) : str_eqb a b = false <-> a <> b.
Proof.
  unfold str_eqb. destruct (list_eq_dec N.eq_dec a b); split; congruence.
Qed.

Lemma startswith_prefix (p s : str) :
  startswith p s = true <-> exists rest, s = p ++ rest.
Proof.
  revert s. induction p as [|a p IH]; intros s; simpl.
  - split; eauto.
  - destruct s as [|b s].
    + split; [discriminate | intros [r Hr]; discriminate].
    + rewrite andb_true_iff, N.eqb_eq, IH. split.
      * intros [-> [r ->]]. now exists r.
      * intros [r Hr]. injection Hr as -> ->. eauto.
Qed.

Lemma startswith_app (p rest : str) : startswith p (p ++ rest) = true.
Proof. apply startswith_prefix. now exists rest. Qed.

Lemma N_of_ascii_inj (a b : ascii) : N_of_ascii a = N_of_ascii b -> a = b.
Proof.
  intros H. rewrite <- (ascii_N_embedding a), <- (ascii_N_embedding b).
  now rewrite H.
Qed.

Lemma lit_inj (s t : string) : lit s = lit t -> s = t.
Proof.
  unfold lit. intros H.
  rewrite <- (string_of_list_ascii_of_string s),
          <- (string_of_list_ascii_of_string t).
  f_equal. revert H.
  generalize (list_ascii_of_string s) (list_ascii_of_string t).
  induction l as [|a l IH]; intros [|b l'] H; simpl in H;
    try discriminate; auto.
  injection H as Hab Hl. f_equal; auto using N_of_ascii_inj.
Qed.

Lemma hex_inj (n m : nat) : hex n = hex m -> n = m.
Proof.
  unfold hex. intros H. apply lit_inj in H.
  apply (f_equal HexString.to_N) in H.
  rewrite !HexString.to_N_of_N in H. lia.
Qed.

End StringFacts.

(** ** The namespace classifier *)

Lemma find_namespace_first_match (func : str) :
  _find_namespace func = first_match namespace_prefixes func.
Proof. reflexivity. Qed.

Lemma prefixes_exclusive (a b : char) (p q s : str) :
  a <> b -> startswith (a :: p) s = true -> startswith (b :: q) s = false.
Proof.
  intros Hab H. destruct s as [|c s]; simpl in *; [discriminate|].
  apply andb_true_iff in H as [H _]. apply N.eqb_eq in H. subst c.
  apply N.eqb_neq in Hab. rewrite N.eqb_sym in Hab. now rewrite Hab.
Qed.

(** C6. The classifier returns the tag of the first matching prefix of the
    historical list: COCOS2D exactly for the strings that begin with the
    literal "cococs2d::", STD exactly for those that begin with "std::",
    PUGI exactly for those that begin with "pugi::", and NONE exactly for
    the strings that begin with none of the three. *)
Theorem find_namespace_classifies (func : str) :
  _find_namespace func = first_match namespace_prefixes func /\
  (_find_namespace func = COCOS2D <->
     exists rest, func = lit "cococs2d::" ++ rest) /\
  (_find_namespace func = STD <-> exists rest, func = lit "std::" ++ rest) /\
  (_find_namespace func = PUGI <-> exists rest, func = lit "pugi::" ++ rest) /\
  (_find_namespace func = NONE <->
     ~ (exists rest, func = lit "cococs2d::" ++ rest) /\
     ~ (exists rest, func = lit "std::" ++ rest) /\
     ~ (exists rest, func = lit "pugi::" ++ rest)).
Proof.
  split; [reflexivity|].
  rewrite <- !startswith_prefix. unfold _find_namespace.
  destruct (startswith (lit "cococs2d::") func) eqn:Hc.
  - assert (Hs : startswith (lit "std::") func = false)
      by exact (prefixes_exclusive 99%N 115%N _ (tl (lit "std::")) func
                  ltac:(discriminate) Hc).
    assert (Hp : startswith (lit "pugi::") func = false)
      by exact (prefixes_exclusive 99%N 112%N _ (tl (lit "pugi::")) func
                  ltac:(discriminate) Hc).
    rewrite Hs, Hp.
    repeat split; try congruence; try tauto; intros (? & ? & ?); congruence.
  - destruct (startswith (lit "std::") func) eqn:Hs.
    + assert (Hp : startswith (lit "pugi::") func = false)
        by exact (prefixes_exclusive 115%N 112%N _ (tl (lit "pugi::")) func
                    ltac:(discriminate) Hs).
      rewrite Hp.
      repeat split; try congruence; try tauto; intros (? & ? & ?); congruence.
    + destruct (startswith (lit "pugi::") func) eqn:Hp;
        repeat split; try congruence; try tauto; intros (? & ? & ?); congruence.
Qed.

(** ** The slot counter *)

Lemma next_counter_at (n : nat) :
  OffsetCounter.next (counter_at n) = (slot_name n, counter_at (S n)).
Proof.
  unfold OffsetCounter.next, counter_at, slot_name.
  cbn [OffsetCounter.i OffsetCounter.stack_val].
  destruct (Nat.ltb_spec n 4) as [Hlt|Hge].
  - assert (Hm : (Nat.min n 4 <? 4) = true) by (apply Nat.ltb_lt; lia).
    rewrite Hm.
    replace (Nat.min (S n) 4) with (Nat.min n 4 + 1) by lia.
    replace (S n - 4) with (n - 4) by lia.
    replace (Nat.min n 4) with n by lia. reflexivity.
  - assert (Hm : (Nat.min n 4 <? 4) = false) by (apply Nat.ltb_ge; lia).
    rewrite Hm.
    replace ((n - 4) * 4) with (4 * (n - 4)) by lia.
    replace (Nat.min (S n) 4) with (Nat.min n 4) by lia.
    replace (S n - 4) with (n - 4 + 1) by lia. reflexivity.
Qed.

Lemma issue_counter_at (n k : nat) :
  issue n (counter_at k) = map slot_name (seq k n).
Proof.
  revert k. induction n as [|n IH]; intros k; simpl; [reflexivity|].
  rewrite next_counter_at. now rewrite IH.
Qed.

Lemma slot_name_inj (n m : nat) : slot_name n = slot_name m -> n = m.
Proof.
  unfold slot_name.
  destruct (Nat.ltb_spec n 4) as [Hn|Hn], (Nat.ltb_spec m 4) as [Hm|Hm].
  - assert (Hcases : forall k, k < 4 -> k = 0 \/ k = 1 \/ k = 2 \/ k = 3)
      by (intros; lia).
    destruct (Hcases n Hn) as [->|[->|[->| ->]]],
             (Hcases m Hm) as [->|[->|[->| ->]]];
      intros H; try reflexivity; discriminate H.
  - intros H. discriminate H.
  - intros H. discriminate H.
  - intros H. apply app_inv_head, app_inv_tail, hex_inj in H. lia.
Qed.

Lemma slot_names_NoDup (k n : nat) : NoDup (map slot_name (seq k n)).
Proof.
  apply Injective_map_NoDup; [|apply seq_NoDup].
  intros a b. apply slot_name_inj.
Qed.

(** ** Dictionaries *)

Lemma dict_set_fresh (d : dict) (k v : str) :
  ~ In k (map fst d) -> dict_set d k v = d ++ [(k, v)].
Proof.
  induction d as [|[k' v'] d IH]; simpl; intros Hk; [reflexivity|].
  destruct (str_eqb k' k) eqn:E.
  - apply str_eqb_eq in E. tauto.
  - rewrite IH; tauto.
Qed.

Lemma dict_update_fresh (other d : dict) :
  NoDup (map fst (d ++ other)) -> dict_update d other = d ++ other.
Proof.
  unfold dict_update. revert d.
  induction other as [|[k v] other IH]; intros d Hnd; simpl.
  - now rewrite app_nil_r.
  - assert (Hd : d ++ (k, v) :: other = (d ++ [(k, v)]) ++ other)
      by now rewrite <- app_assoc.
    rewrite dict_set_fresh.
    + rewrite IH; [now rewrite <- app_assoc|]. now rewrite <- Hd.
    + rewrite map_app in Hnd. simpl in Hnd.
      apply NoDup_remove_2 in Hnd. intros Hin. apply Hnd.
      apply in_or_app. now left.
Qed.

(** The comprehension over the arguments, started after [k] slots, names
    the next slots in order and keeps every argument. *)
Lemma slot_comprehension_spec (args : list str) (k : nat) (d : dict) :
  map fst d = map slot_name (seq (k - length d) (length d)) ->
  length d <= k ->
  slot_comprehension (counter_at k) args d =
    (d ++ combine (map slot_name (seq k (length args))) (map strip args),
     counter_at (k + length args)).
Proof.
  revert k d. induction args as [|a args IH]; intros k d Hd Hk; simpl.
  - rewrite app_nil_r. f_equal. f_equal. lia.
  - rewrite next_counter_at.
    rewrite dict_set_fresh.
    + rewrite IH.
      * rewrite <- app_assoc. simpl. f_equal. f_equal. lia.
      * rewrite map_app, length_app, Hd. simpl.
        replace (S k - (length d + 1)) with (k - length d) by lia.
        replace (length d + 1) with (S (length d)) by lia.
        rewrite seq_S, map_app. simpl. repeat f_equal. lia.
      * rewrite length_app. simpl. lia.
    + rewrite Hd. intros Hin. apply in_map_iff in Hin as [j [Hj Hin]].
      apply slot_name_inj in Hj. subst j. apply in_seq in Hin. lia.
Qed.

Lemma combine_slots_keys (k : nat) (vs : list str) :
  map fst (combine (map slot_name (seq k (length vs))) vs) =
    map slot_name (seq k (length vs)).
Proof.
  revert k. induction vs as [|v vs IH]; intros k; simpl; [reflexivity|].
  now rewrite IH.
Qed.

(** The mapper takes its first branch whatever the record holds: the slot
    map is the receiver in r0 followed by the arguments in the next slots. *)
Lemma make_possible_arg_offsets_spec (self : Function) :
  _make_possible_arg_offsets self =
    (lit "r0", lit "this") ::
      combine (map slot_name (seq 1 (length (args self))))
              (map strip (args self)).
Proof.
  unfold _make_possible_arg_offsets. cbn [truth].
  change OffsetCounter.init with (counter_at 0).
  rewrite next_counter_at.
  rewrite (slot_comprehension_spec (args self) 1 []); [|reflexivity|simpl; lia].
  cbn [app dict_set]. rewrite dict_update_fresh; [reflexivity|].
  cbn [app map fst].
  rewrite <- (length_map strip (args self)), combine_slots_keys.
  change (slot_name 0 :: map slot_name (seq 1 (length (map strip (args self)))))
    with (map slot_name (seq 0 (S (length (map strip (args self)))))).
  apply slot_names_NoDup.
Qed.

(** C2. The counter issues its slots in a fixed order: the i-th name
    issued, counted from 0, is the register r<i> for i < 4 and
    STACK[<hex of 4*(i-4)>] from then on, so the four registers come before
    any stack slot and the stack offsets run 0x0, 0x4, 0x8, ...; the mapper
    binds the first slot issued to "this" whatever the number of arguments,
    and with no argument the slot map is exactly {r0: "this"}. *)
Theorem slots_issued_in_order :
  (forall n, issue n OffsetCounter.init = map slot_name (seq 0 n)) /\
  map slot_name (seq 0 4) = [lit "r0"; lit "r1"; lit "r2"; lit "r3"] /\
  (forall k, slot_name (4 + k) = lit "STACK[" ++ hex (4 * k) ++ lit "]") /\
  map slot_name (seq 4 3) =
    [lit "STACK[0x0]"; lit "STACK[0x4]"; lit "STACK[0x8]"] /\
  (forall self, exists rest,
      _make_possible_arg_offsets self = (lit "r0", lit "this") :: rest /\
      map fst rest = map slot_name (seq 1 (length (args self)))) /\
  (forall m d ns nn ao,
      _make_possible_arg_offsets
        {| mangled_func := m; demangled_func := d; args := [];
           namespaceEnum := ns; namespaceName := nn; arg_offsets := ao |} =
        [(lit "r0", lit "this")]).
Proof.
  split; [|split; [|split; [|split; [|split]]]].
  - intros n. apply (issue_counter_at n 0).
  - reflexivity.
  - intros k. unfold slot_name.
    assert (H : (4 + k <? 4) = false) by (apply Nat.ltb_ge; lia).
    rewrite H. now replace (4 + k - 4) with k by lia.
  - reflexivity.
  - intros self. eexists. split; [apply make_possible_arg_offsets_spec|].
    rewrite <- (length_map strip (args self)). apply combine_slots_keys.
  - intros. now rewrite make_possible_arg_offsets_spec.
Qed.

(** ** Record construction *)

Lemma decode_raises (b : Bytearray.bytearray) (e : exn) :
  Bytearray.decode b = Raise e -> e = UnicodeDecodeError.
Proof.
  unfold Bytearray.decode. destruct (Bytearray.utf8 b); congruence.
Qed.

Lemma append_raises (b : Bytearray.bytearray) (x : N) (e : exn) :
  Bytearray.append b x = Raise e -> e = ValueError.
Proof.
  unfold Bytearray.append. destruct (x <? 256)%N; congruence.
Qed.

Lemma step_raises (st : Splitter.state) (d : char) (e : exn) :
  Splitter.step st d = Raise e -> is_ValueError e = true.
Proof.
  unfold Splitter.step.
  repeat match goal with
         | |- context [if ?c then _ else _] => destruct c
         end;
    match goal with
    | |- context [Bytearray.append ?b ?x] =>
        destruct (Bytearray.append b x) eqn:E; simpl; try discriminate;
        intros H; injection H as <-; apply append_raises in E; now subst
    | |- context [Bytearray.decode ?b] =>
        destruct (Bytearray.decode b) eqn:E; simpl; try discriminate;
        intros H; injection H as <-; apply decode_raises in E; now subst
    end.
Qed.

Lemma loop_raises (data : str) (st : Splitter.state) (e : exn) :
  Splitter.loop st data = Raise e -> is_ValueError e = true.
Proof.
  revert st. induction data as [|d data IH]; intros st; simpl; [discriminate|].
  destruct (Splitter.step st d) eqn:E; simpl.
  - apply IH.
  - intros H. injection H as <-. eapply step_raises; eauto.
Qed.

Lemma split_cpp_args_raises (data : str) (e : exn) :
  split_cpp_args data = Raise e -> is_ValueError e = true.
Proof.
  unfold split_cpp_args.
  destruct (Splitter.loop _ data) as [st|e'] eqn:E; simpl.
  - destruct (Splitter.b st); [discriminate|].
    destruct (Bytearray.decode _) eqn:D; simpl; [discriminate|].
    intros H. injection H as <-. apply decode_raises in D. now subst.
  - intros H. injection H as <-. eapply loop_raises; eauto.
Qed.

Lemma demangle_arguments_raises (func : str) (e : exn) :
  _demangle_arguments func = Raise e -> is_ValueError e = true.
Proof.
  unfold _demangle_arguments.
  destruct (contains (lit "{") func); [apply split_cpp_args_raises|].
  destruct (contains (lit "(") func); [apply split_cpp_args_raises|].
  discriminate.
Qed.

Section Construction.

Variable demangle : str -> option str.

(** What the [try] block does to a fresh object, by the two places where it
    can be left early. *)
Lemma post_init_try_run (mangled : str) :
  post_init_try demangle (attrs_init mangled) =
    match demangle mangled with
    | None => (attrs_init mangled, Raise ValueError)
    | Some sig =>
        match _demangle_arguments sig with
        | Raise e => (interrupted_record mangled sig, Raise e)
        | Ok a => (success_record mangled sig a, Ok tt)
        end
    end.
Proof.
  unfold post_init_try, bind, get, lift, call_demangle, attrs_init.
  cbn [mangled_func].
  destruct (demangle mangled) as [sig|]; [|reflexivity].
  cbn [set_demangled_func demangled_func getattr mangled_func args
       namespaceEnum namespaceName arg_offsets].
  destruct (_demangle_arguments sig) as [a|e]; [|reflexivity].
  cbn [set_args set_namespaceEnum set_namespaceName set_arg_offsets
       demangled_func getattr mangled_func args namespaceEnum namespaceName
       arg_offsets].
  rewrite make_possible_arg_offsets_spec. reflexivity.
Qed.

(** Construction always returns a record: the one of the [try] block, or
    the failure record. *)
Lemma new_Function_run (mangled : str) :
  new_Function demangle mangled =
    Ok match demangle mangled with
       | None => failure_record mangled
       | Some sig =>
           match _demangle_arguments sig with
           | Raise _ => failure_record mangled
           | Ok a => success_record mangled sig a
           end
       end.
Proof.
  unfold new_Function, __attrs_post_init__, try_except.
  rewrite post_init_try_run.
  destruct (demangle mangled) as [sig|]; [|reflexivity].
  destruct (_demangle_arguments sig) as [a|e] eqn:E; [reflexivity|].
  now rewrite (demangle_arguments_raises _ _ E).
Qed.

End Construction.

(** ** The record after construction *)

(** C9. Whenever the [try] block of the construction runs to its end (the
    demangler accepted the name and nothing was raised after it), the slot
    map of the record holds the receiver: its first entry is r0 bound to
    "this" and it has [len(args) + 1] entries, one per argument after the
    receiver; the verdict of the this-call heuristic plays no part. *)
Theorem slot_map_always_has_receiver
    (demangle : str -> option str) (mangled : str) (f : Function) :
  post_init_try demangle (attrs_init mangled) = (f, Ok tt) ->
  new_Function demangle mangled = Ok f /\
  (exists sig, demangle mangled = Some sig /\ demangled_func f = Some sig /\
               _demangle_arguments sig = Ok (args f)) /\
  hd_error (arg_offsets f) = Some (lit "r0", lit "this") /\
  length (arg_offsets f) = length (args f) + 1 /\
  arg_offsets f =
    (lit "r0", lit "this") ::
      combine (map slot_name (seq 1 (length (args f)))) (map strip (args f)).
Proof.
  intros Hrun.
  pose proof (new_Function_run demangle mangled) as Hnew.
  rewrite post_init_try_run in Hrun.
  destruct (demangle mangled) as [sig|]; [|discriminate].
  destruct (_demangle_arguments sig) as [a|e] eqn:Ha; [|discriminate].
  injection Hrun as <-. cbn [success_record args arg_offsets demangled_func].
  repeat split; auto.
  - exists sig. auto.
  - cbn [length]. rewrite length_combine, !length_map, length_seq. lia.
Qed.

Lemma slot_map_always_has_receiver_witness :
  post_init_try sample_demangle (attrs_init (lit "_Z3fooi")) =
    (success_record (lit "_Z3fooi") (lit "foo(int)") [lit "int"], Ok tt) /\
  _is_this_call (success_record (lit "_Z3fooi") (lit "foo(int)") [lit "int"])
    (lit "foo(int)") = Ok false /\
  hd_error
    (arg_offsets (success_record (lit "_Z3fooi") (lit "foo(int)") [lit "int"])) =
    Some (lit "r0", lit "this").
Proof.
  split; [vm_compute; reflexivity|]. split; [vm_compute; reflexivity|].
  apply (slot_map_always_has_receiver sample_demangle (lit "_Z3fooi")).
  vm_compute; reflexivity.
Defined.

(** C10. An exception raised in the [try] block after the demangler has
    returned is a [ValueError] (the splitter's buffer refusing a character
    or failing to decode), it is caught, and the record ends in the same
    shape as after a demangle failure: "FAILED", no argument, NONE, "none"
    and an empty slot map; the signature stored before the exception does
    not survive. *)
Theorem construction_failure_is_complete
    (demangle : str -> option str) (mangled sig : str) (self : Function)
    (e : exn) :
  demangle mangled = Some sig ->
  post_init_try demangle (attrs_init mangled) = (self, Raise e) ->
  is_ValueError e = true /\
  demangled_func self = Some sig /\
  exists f,
    new_Function demangle mangled = Ok f /\
    mangled_func f = mangled /\
    demangled_func f = Some (lit "FAILED") /\
    args f = [] /\
    namespaceEnum f = Some NONE /\
    namespaceName f = Some (lit "none") /\
    arg_offsets f = [].
Proof.
  intros Hd Hrun.
  pose proof (new_Function_run demangle mangled) as Hnew.
  rewrite post_init_try_run in Hrun. rewrite Hd in Hrun, Hnew.
  destruct (_demangle_arguments sig) as [a|e'] eqn:Ha; [discriminate|].
  injection Hrun as <- <-.
  split; [eapply demangle_arguments_raises; eauto|].
  split; [reflexivity|].
  exists (failure_record mangled). repeat split; auto.
Qed.

Lemma construction_failure_is_complete_witness :
  sample_demangle (lit "_Z1g2" ++ [256%N]) =
    Some (lit "g(" ++ [256%N] ++ lit ")") /\
  post_init_try sample_demangle (attrs_init (lit "_Z1g2" ++ [256%N])) =
    (interrupted_record (lit "_Z1g2" ++ [256%N])
       (lit "g(" ++ [256%N] ++ lit ")"),
     Raise ValueError) /\
  exists f,
    new_Function sample_demangle (lit "_Z1g2" ++ [256%N]) = Ok f /\
    demangled_func f = Some (lit "FAILED") /\ arg_offsets f = [].
Proof.
  split; [vm_compute; reflexivity|]. split; [vm_compute; reflexivity|].
  destruct (construction_failure_is_complete sample_demangle
              (lit "_Z1g2" ++ [256%N])
              (lit "g(" ++ [256%N] ++ lit ")")
              (interrupted_record (lit "_Z1g2" ++ [256%N])
                 (lit "g(" ++ [256%N] ++ lit ")"))
              ValueError)
    as (_ & _ & f & Hf & _ & Hd & _ & _ & _ & Ho);
    [vm_compute; reflexivity | vm_compute; reflexivity |].
  exists f. auto.
Defined.

(** The same with a character of the single-byte range that is not valid
    UTF-8 on its own: the exception is the [UnicodeDecodeError] of
    [decode]. *)
Example construction_failure_on_decode :
  post_init_try sample_demangle (attrs_init (lit "_Z1f2" ++ [233%N])) =
    (interrupted_record (lit "_Z1f2" ++ [233%N])
       (lit "f(" ++ [233%N] ++ lit ")"),
     Raise UnicodeDecodeError) /\
  new_Function sample_demangle (lit "_Z1f2" ++ [233%N]) =
    Ok (failure_record (lit "_Z1f2" ++ [233%N])).
Proof. split; vm_compute; reflexivity. Qed.

(** ** The exclusion policy and the collection *)

Lemma rejectedb_spec (f : Function) : rejectedb f = true <-> rejected f.
Proof.
  unfold rejectedb, rejected, begins_with.
  rewrite orb_true_iff, existsb_exists.
  setoid_rewrite startswith_prefix.
  split.
  - intros [H|H]; [now left|right].
    destruct (demangled_func f) as [dn|]; [|discriminate].
    exists dn. split; [reflexivity|].
    rewrite !orb_true_iff, !startswith_prefix in H. tauto.
  - intros [H|[dn [Hd H]]]; [now left|right].
    rewrite Hd, !orb_true_iff, !startswith_prefix. tauto.
Qed.

Lemma rejectedb_false (f : Function) : rejectedb f = false <-> ~ rejected f.
Proof.
  rewrite <- rejectedb_spec. destruct (rejectedb f); split; congruence.
Qed.

Lemma any_map_existsb {A} (p : A -> bool) (l : list A) :
  any (map p l) = existsb p l.
Proof.
  unfold any. induction l as [|a l IH]; simpl; [reflexivity|].
  now rewrite IH.
Qed.

Section Collection.

Variable demangle : str -> option str.

Lemma record_of_constructed (mangled : str) :
  constructed (record_of demangle mangled) /\
  mangled_func (record_of demangle mangled) = mangled.
Proof.
  unfold record_of, constructed.
  destruct (demangle mangled) as [sig|];
    [destruct (_demangle_arguments sig)|]; cbn; eauto 6.
Qed.

Lemma new_Function_record_of (mangled : str) :
  new_Function demangle mangled = Ok (record_of demangle mangled).
Proof. apply new_Function_run. Qed.

Lemma add_func_run (elf : ELF) (func : str) :
  add_func demangle elf func =
    Ok (if rejectedb (record_of demangle func) then elf
        else {| functions := functions elf ++ [record_of demangle func];
                version := version elf |}).
Proof.
  unfold add_func. rewrite new_Function_record_of. cbn [rbind].
  destruct (record_of_constructed func) as [(dn & ns & Hd & _ & _) _].
  unfold rejectedb. rewrite Hd, any_map_existsb.
  destruct (existsb _ (args (record_of demangle func))); [reflexivity|].
  cbn [getattr rbind orb]. unfold startswith_any. cbn [existsb].
  rewrite orb_false_r, <- orb_assoc. now destruct (_ || _).
Qed.

Lemma add_symbols_run (names : list str) (elf : ELF) :
  add_symbols demangle elf names =
    Ok {| functions :=
            functions elf ++
              filter (fun g => negb (rejectedb g))
                (map (record_of demangle)
                   (filter (startswith (lit "_Z")) names));
          version := version elf |}.
Proof.
  revert elf. induction names as [|s names IH]; intros elf.
  - cbn. rewrite app_nil_r. now destruct elf.
  - cbn [add_symbols filter].
    destruct (startswith (lit "_Z") s); [|apply IH].
    rewrite add_func_run. cbn [rbind map filter].
    destruct (rejectedb (record_of demangle s)); cbn [negb]; [apply IH|].
    rewrite IH. cbn [functions version]. now rewrite <- app_assoc.
Qed.

End Collection.

(** C4. When the demangler rejects a name, construction returns a record
    all the same: "FAILED", no argument, NONE and an empty slot map; the
    exclusion policy lets it through, [add_func] appends it, and the loop
    over the symbols goes on to its end whatever the names are. *)
Theorem demangle_failure_is_recovered
    (demangle : str -> option str) (mangled : str) (elf : ELF) :
  demangle mangled = None ->
  (exists f,
     new_Function demangle mangled = Ok f /\
     mangled_func f = mangled /\
     demangled_func f = Some (lit "FAILED") /\
     args f = [] /\
     namespaceEnum f = Some NONE /\
     arg_offsets f = [] /\
     ~ rejected f /\
     add_func demangle elf mangled =
       Ok {| functions := functions elf ++ [f]; version := version elf |}) /\
  (forall names, exists elf', add_symbols demangle elf names = Ok elf').
Proof.
  intros Hd. split.
  - exists (failure_record mangled).
    assert (Hr : record_of demangle mangled = failure_record mangled)
      by (unfold record_of; now rewrite Hd).
    rewrite new_Function_record_of, add_func_run, Hr.
    assert (Hn : rejectedb (failure_record mangled) = false) by reflexivity.
    rewrite Hn. repeat split; auto. now apply rejectedb_false.
  - intros names. rewrite add_symbols_run. eauto.
Qed.

Lemma demangle_failure_is_recovered_witness :
  sample_demangle (lit "_Zxx") = None /\
  add_func sample_demangle {| functions := []; version := lit "2.2074" |}
    (lit "_Zxx") =
    Ok {| functions := [failure_record (lit "_Zxx")];
          version := lit "2.2074" |}.
Proof.
  split; [vm_compute; reflexivity|].
  destruct (demangle_failure_is_recovered sample_demangle (lit "_Zxx")
              {| functions := []; version := lit "2.2074" |})
    as [(f & Hf & _ & _ & _ & _ & _ & _ & Hadd) _];
    [vm_compute; reflexivity|].
  rewrite new_Function_record_of in Hf. injection Hf as <-. exact Hadd.
Defined.

(** C5. [add_func] discards the record exactly when one of its arguments
    begins with "std::__exception_ptr" or its demangled name begins with
    "typeinfo name for ", "typeinfo for " or "{vtable"; otherwise it appends
    it after the records already held.  A collection whose records all
    passed the policy keeps that property through every insertion. *)
Theorem exclusion_policy_decides
    (demangle : str -> option str) (elf : ELF) (func : str) :
  exists f,
    new_Function demangle func = Ok f /\
    (rejected f -> add_func demangle elf func = Ok elf) /\
    (~ rejected f ->
       add_func demangle elf func =
         Ok {| functions := functions elf ++ [f]; version := version elf |}) /\
    (Forall (fun g => ~ rejected g) (functions elf) ->
     exists elf',
       add_func demangle elf func = Ok elf' /\
       Forall (fun g => ~ rejected g) (functions elf') /\
       (functions elf' = functions elf \/
        functions elf' = functions elf ++ [f])).
Proof.
  exists (record_of demangle func).
  rewrite new_Function_record_of, add_func_run.
  split; [reflexivity|].
  destruct (rejectedb (record_of demangle func)) eqn:E.
  - apply rejectedb_spec in E. repeat split.
    + tauto.
    + intros Hinv. exists elf. destruct elf; auto.
  - apply rejectedb_false in E. repeat split.
    + tauto.
    + intros Hinv. eexists. split; [reflexivity|]. cbn [functions]. split; auto.
      apply Forall_app. auto.
Qed.

Lemma exclusion_policy_decides_witness :
  exists elf',
    add_func sample_demangle
      {| functions := [failure_record (lit "_Zxx")]; version := lit "2.2074" |}
      (lit "_Z3fooi") = Ok elf' /\
    Forall (fun g => ~ rejected g) (functions elf') /\
    length (functions elf') = 2.
Proof.
  destruct (exclusion_policy_decides sample_demangle
              {| functions := [failure_record (lit "_Zxx")];
                 version := lit "2.2074" |} (lit "_Z3fooi"))
    as (f & Hf & _ & _ & Hinv).
  destruct Hinv as (elf' & Hadd & Hall & _).
  - constructor; [|constructor]. apply rejectedb_false. vm_compute; reflexivity.
  - exists elf'. split; [exact Hadd|]. split; [exact Hall|].
    rewrite add_func_run in Hadd. injection Hadd as <-.
    vm_compute; reflexivity.
Defined.

(** ** The output aggregate *)

Lemma asdict_constructed (f : Function) :
  constructed f ->
  exists item ns,
    asdict_Function f = Ok item /\
    namespaceEnum f = Some ns /\
    field_of item (lit "mangled_func") = Some (JString (mangled_func f)) /\
    field_of item (lit "namespaceEnum") = Some (JInt (ordinal ns)) /\
    field_of item (lit "namespaceName") = Some (JString (lowercase_name ns)).
Proof.
  intros (dn & ns & Hd & Hn & Hnn).
  unfold asdict_Function. rewrite Hd, Hn, Hnn. cbn [getattr rbind].
  eexists. exists ns. split; [reflexivity|]. split; [reflexivity|].
  repeat split; destruct ns; reflexivity.
Qed.

Lemma sequence_asdict (fs : list Function) :
  Forall constructed fs ->
  exists items,
    sequence (map asdict_Function fs) = Ok items /\ Forall2 describes fs items.
Proof.
  induction 1 as [|f fs Hf _ IH]; cbn [map sequence].
  - exists []. split; [reflexivity|constructor].
  - destruct (asdict_constructed f Hf) as (item & ns & Hi & Hdesc).
    destruct IH as (items & Hs & Hall).
    exists (item :: items). rewrite Hi, Hs. split; [reflexivity|].
    constructor; [exists ns; exact Hdesc|exact Hall].
Qed.

(** C8. For the collection that the loop over the symbols builds, the
    aggregate handed to the encoder has the three keys "functions",
    "total_functions" and "gd-version": the first lists the records in the
    order of the collection, the second is their number, the third is the
    tag the caller gave; each entry carries under namespaceEnum the ordinal
    of the record's tag (NONE=1, STD=2, COCOS2D=3, PUGI=4) and under
    namespaceName the lowercase name of that tag. *)
Theorem as_json_aggregate
    (demangle : str -> option str) (names : list str) (tag : str)
    (elf : ELF) :
  add_symbols demangle {| functions := []; version := tag |} names =
    Ok elf ->
  exists items,
    as_json elf =
      Ok (JObject
            [ (lit "functions", JArray items);
              (lit "total_functions",
               JInt (Z.of_nat (length (functions elf))));
              (lit "gd-version", JString tag) ]) /\
    length items = length (functions elf) /\
    Forall2 describes (functions elf) items.
Proof.
  rewrite add_symbols_run. intros H. injection H as <-.
  cbn [functions app version].
  set (fs := filter _ _).
  assert (Hc : Forall constructed fs).
  { apply Forall_forall. intros f Hin. apply filter_In in Hin as [Hin _].
    apply in_map_iff in Hin as (m & <- & _). apply record_of_constructed. }
  destruct (sequence_asdict fs Hc) as (items & Hs & Hall).
  exists items. unfold as_json. cbn [functions version].
  rewrite Hs. cbn [rbind]. repeat split; auto.
  symmetry. eapply Forall2_length; eauto.
Qed.

Lemma as_json_aggregate_witness :
  exists items,
    as_json
      {| functions :=
           [record_of sample_demangle (lit "_ZN7cococs2d9SomeClass6methodEi");
            record_of sample_demangle (lit "_Zxx")];
         version := lit "2.2074" |} =
      Ok (JObject
            [ (lit "functions", JArray items);
              (lit "total_functions", JInt 2);
              (lit "gd-version", JString (lit "2.2074")) ]) /\
    length items = 2.
Proof.
  destruct (as_json_aggregate sample_demangle
              [lit "_ZN7cococs2d9SomeClass6methodEi"; lit "main"; lit "_Zxx"]
              (lit "2.2074")
              {| functions :=
                   [record_of sample_demangle
                      (lit "_ZN7cococs2d9SomeClass6methodEi");
                    record_of sample_demangle (lit "_Zxx")];
                 version := lit "2.2074" |})
    as (items & Hj & Hlen & _); [vm_compute; reflexivity|].
  exists items. split; [exact Hj|exact Hlen].
Defined.

(** ** The this-call heuristic *)

(** C1, on the code.  For the free function foo(int) the heuristic answers
    false (tag NONE, no "::" in the signature), yet the slot map of the
    record binds r0 to "this" and moves the argument to r1: it has two
    entries for one argument.  The mapper tests the method object
    [self._is_this_call], which is always true, instead of calling it. *)
Theorem heuristic_verdict_is_ignored (demangle : str -> option str) :
  demangle (lit "_Z3fooi") = Some (lit "foo(int)") ->
  exists f,
    new_Function demangle (lit "_Z3fooi") = Ok f /\
    args f = [lit "int"] /\
    namespaceEnum f = Some NONE /\
    length (split (lit "::") (lit "foo(int)")) = 1 /\
    _is_this_call f (lit "foo(int)") = Ok false /\
    arg_offsets f = [(lit "r0", lit "this"); (lit "r1", lit "int")] /\
    length (arg_offsets f) <> length (args f) + 0.
Proof.
  intros Hd. eexists. rewrite new_Function_run, Hd.
  split; [vm_compute; reflexivity|].
  repeat split; try (vm_compute; reflexivity).
  vm_compute. discriminate.
Qed.

Lemma heuristic_verdict_is_ignored_witness :
  exists f,
    new_Function sample_demangle (lit "_Z3fooi") = Ok f /\
    _is_this_call f (lit "foo(int)") = Ok false /\
    arg_offsets f = [(lit "r0", lit "this"); (lit "r1", lit "int")].
Proof.
  destruct (heuristic_verdict_is_ignored sample_demangle)
    as (f & Hf & _ & _ & _ & Hv & Ho & _); [vm_compute; reflexivity|].
  exists f. auto.
Defined.

(** ** The argument splitter *)

Lemma utf8_ascii (b : Bytearray.bytearray) :
  ascii_only b -> Bytearray.utf8 b = Some b.
Proof.
  induction 1 as [|c b Hc _ IH]; [reflexivity|].
  cbn [Bytearray.utf8]. apply N.ltb_lt in Hc. rewrite Hc, IH. reflexivity.
Qed.

Lemma decode_ascii (b : Bytearray.bytearray) :
  ascii_only b -> Bytearray.decode b = Ok b.
Proof. intros H. unfold Bytearray.decode. now rewrite utf8_ascii. Qed.

Lemma append_ascii (b : Bytearray.bytearray) (c : N) :
  (c < 128)%N -> Bytearray.append b c = Ok (b ++ [c]).
Proof.
  intros H. unfold Bytearray.append.
  assert (Hc : (c <? 256)%N = true) by (apply N.ltb_lt; lia).
  now rewrite Hc.
Qed.

Lemma top_level_fields_nonempty (d : Z) (s : str) :
  top_level_fields d s <> [].
Proof.
  destruct s as [|c r]; cbn [top_level_fields]; [discriminate|].
  destruct (_ && _); [discriminate|].
  destruct (top_level_fields (bump d c) r); discriminate.
Qed.

Lemma prepend_cons_head (b : str) (c : char) (fs : list str) :
  prepend b match fs with
            | f :: r => (c :: f) :: r
            | [] => [[c]]
            end = prepend (b ++ [c]) fs.
Proof.
  destruct fs as [|f r]; cbn [prepend]; [reflexivity|].
  now rewrite <- app_assoc.
Qed.

Lemma prepend_nil (fs : list str) : fs <> [] -> prepend [] fs = fs.
Proof. destruct fs; [congruence|reflexivity]. Qed.

Lemma top_level_fields_ascii (s : str) (d : Z) :
  ascii_only s -> Forall ascii_only (top_level_fields d s).
Proof.
  intros H. revert d. induction H as [|c r Hc Hr IH]; intros d.
  - repeat constructor.
  - cbn [top_level_fields]. destruct (_ && _).
    + constructor; [constructor|apply IH].
    + specialize (IH (bump d c)).
      destruct (top_level_fields (bump d c) r) as [|f fs].
      * repeat constructor. exact Hc.
      * inversion IH; subst. constructor; [constructor|]; assumption.
Qed.

(** The loop, on ASCII text: the pieces closed so far are in [args], the
    piece being read is in the buffer. *)
Lemma loop_ascii (data : str) :
  forall (a : list str) (b : str) (d : Z),
    ascii_only data -> ascii_only b ->
    Splitter.loop
      {| Splitter.args := a; Splitter.b := b; Splitter.followed_by := d |}
      data =
      Ok {| Splitter.args :=
              a ++ map strip
                     (removelast (prepend b (top_level_fields d data)));
            Splitter.b := last (prepend b (top_level_fields d data)) [];
            Splitter.followed_by := depth_after d data |}.
Proof.
  induction data as [|c r IH]; intros a b d Hdata Hb.
  - cbn. now rewrite !app_nil_r.
  - inversion Hdata as [|? ? Hc Hr]; subst.
    cbn [Splitter.loop top_level_fields depth_after].
    unfold Splitter.step, bump, Splitter.ord.
    cbn [Splitter.args Splitter.b Splitter.followed_by].
    assert (Hb' : ascii_only (b ++ [c]))
      by (apply Forall_app; split; [assumption|repeat constructor; assumption]).
    destruct (c =? Splitter.lt)%N eqn:Elt.
    { apply N.eqb_eq in Elt. subst c. cbn [N.eqb Pos.eqb andb Splitter.comma
                                            Splitter.lt].
      rewrite append_ascii by assumption. cbn [rbind].
      rewrite IH by assumption. now rewrite prepend_cons_head. }
    destruct (c =? Splitter.gt)%N eqn:Egt.
    { apply N.eqb_eq in Egt. subst c. cbn [N.eqb Pos.eqb andb Splitter.comma
                                            Splitter.gt].
      rewrite append_ascii by assumption. cbn [rbind].
      rewrite IH by assumption. now rewrite prepend_cons_head. }
    destruct ((c =? Splitter.comma)%N && (d =? 0)%Z) eqn:Ecut.
    + rewrite decode_ascii by assumption. cbn [rbind].
      rewrite IH by (assumption || constructor).
      pose proof (top_level_fields_nonempty d r) as Hne.
      rewrite prepend_nil by assumption.
      destruct (top_level_fields d r) as [|f fs] eqn:Ef; [congruence|].
      cbn [prepend]. rewrite app_nil_r.
      cbn [removelast last map]. rewrite <- app_assoc. reflexivity.
    + rewrite append_ascii by assumption. cbn [rbind].
      rewrite IH by assumption. now rewrite prepend_cons_head.
Qed.

Lemma split_cpp_args_ascii (data : str) :
  ascii_only data -> split_cpp_args data = Ok (trimmed_fields data).
Proof.
  intros Hdata. unfold split_cpp_args, trimmed_fields, drop_empty_last.
  rewrite loop_ascii by (assumption || constructor). cbn [rbind].
  cbn [Splitter.args Splitter.b app].
  pose proof (top_level_fields_nonempty 0 data) as Hne.
  pose proof (top_level_fields_ascii data 0 Hdata) as Hascii.
  rewrite prepend_nil by assumption.
  destruct (last (top_level_fields 0 data) []) as [|c l] eqn:El;
    [reflexivity|].
  rewrite decode_ascii.
  - cbn [rbind]. rewrite <- El.
    change [strip (last (top_level_fields 0 data) [])]
      with (map strip [last (top_level_fields 0 data) []]).
    rewrite <- map_app, <- app_removelast_last by assumption. reflexivity.
  - rewrite <- El.
    rewrite (app_removelast_last [] Hne) in Hascii.
    apply Forall_app in Hascii as [_ Hl]. now inversion Hl.
Qed.

Lemma depth_after_cons (d : Z) (c : char) (s : str) :
  depth_after d (c :: s) = depth_after (bump d c) s.
Proof. reflexivity. Qed.

Lemma no_top_comma_cons (d : Z) (c : char) (s : str) :
  ((c =? Splitter.comma)%N && (d =? 0)%Z) = false ->
  no_top_comma (bump d c) s -> no_top_comma d (c :: s).
Proof.
  intros Hc Hs pre post Heq. destruct pre as [|x pre].
  - cbn in Heq. injection Heq as -> _. cbn [depth_after].
    rewrite N.eqb_refl in Hc. cbn [andb] in Hc. now apply Z.eqb_neq.
  - cbn in Heq. injection Heq as <- ->. rewrite depth_after_cons.
    eapply Hs. reflexivity.
Qed.

(** The computed pieces are the pieces between the commas at depth 0. *)
Lemma Fields_top_level_fields (s : str) :
  forall d, Fields d s (top_level_fields d s).
Proof.
  induction s as [|c r IH]; intros d.
  - constructor. intros [|x pre] post H; discriminate H.
  - cbn [top_level_fields].
    destruct ((c =? Splitter.comma)%N && (d =? 0)%Z) eqn:Ecut.
    + apply andb_true_iff in Ecut as [Ec Ed].
      apply N.eqb_eq in Ec. apply Z.eqb_eq in Ed. subst c d.
      apply (Fields_cut 0 [] r).
      * intros [|x pre] post H; discriminate H.
      * reflexivity.
      * apply IH.
    + specialize (IH (bump d c)).
      destruct (top_level_fields (bump d c) r) as [|f fs];
        [inversion IH|].
      inversion IH as [? ? Hno|? ? rest ? Hno Hdepth Hrest]; subst.
      * constructor. now apply no_top_comma_cons.
      * apply (Fields_cut d (c :: f) rest fs).
        -- now apply no_top_comma_cons.
        -- now rewrite depth_after_cons.
        -- assumption.
Qed.

Lemma no_top_comma_tail {d : Z} {c : char} {s : str} :
  no_top_comma d (c :: s) -> no_top_comma (bump d c) s.
Proof.
  intros H pre post Heq. rewrite <- depth_after_cons.
  apply (H (c :: pre) post). now rewrite Heq.
Qed.

Lemma no_top_comma_head {d : Z} {c : char} {s : str} :
  no_top_comma d (c :: s) ->
  ((c =? Splitter.comma)%N && (d =? 0)%Z) = false.
Proof.
  intros H. apply andb_false_iff.
  destruct (N.eqb_spec c Splitter.comma) as [->|]; [right|now left].
  apply Z.eqb_neq. exact (H [] s eq_refl).
Qed.

Lemma top_level_fields_whole (s : str) :
  forall d, no_top_comma d s -> top_level_fields d s = [s].
Proof.
  induction s as [|c r IH]; intros d H; [reflexivity|].
  cbn [top_level_fields]. rewrite (no_top_comma_head H).
  now rewrite (IH _ (no_top_comma_tail H)).
Qed.

Lemma top_level_fields_cut (f : str) :
  forall d rest,
    no_top_comma d f -> depth_after d f = 0%Z ->
    top_level_fields d (f ++ Splitter.comma :: rest) =
      f :: top_level_fields 0 rest.
Proof.
  induction f as [|c f IH]; intros d rest Hno Hd.
  - cbn in Hd. subst d. reflexivity.
  - cbn [app top_level_fields]. rewrite (no_top_comma_head Hno).
    rewrite (IH _ rest (no_top_comma_tail Hno)); [reflexivity|].
    now rewrite <- depth_after_cons.
Qed.

(** The pieces are determined by the text. *)
Lemma Fields_functional (d : Z) (s : str) (fs : list str) :
  Fields d s fs -> fs = top_level_fields d s.
Proof.
  induction 1 as [d s Hno|d f rest fs Hno Hd _ IH].
  - symmetry. now apply top_level_fields_whole.
  - rewrite top_level_fields_cut by assumption. now rewrite IH.
Qed.

(** C3, as the code has it.  On text made of ASCII characters the splitter
    returns the pieces of its input between the commas at nesting depth 0
    (the depth goes up on '<' and down on '>'), each trimmed, the last one
    only if it is not empty; the empty text gives no argument, and a comma
    inside '<...>' does not cut: "std::map<int, std::string>, float" gives
    the two arguments "std::map<int, std::string>" and "float". *)
Theorem split_cpp_args_top_level_fields :
  (forall data, ascii_only data ->
     exists fs,
       Fields 0 data fs /\
       (forall fs', Fields 0 data fs' -> fs' = fs) /\
       split_cpp_args data = Ok (map strip (drop_empty_last fs))) /\
  split_cpp_args [] = Ok [] /\
  split_cpp_args (lit "std::map<int, std::string>, float") =
    Ok [lit "std::map<int, std::string>"; lit "float"].
Proof.
  split; [|split; reflexivity].
  intros data Hdata. exists (top_level_fields 0 data).
  split; [apply Fields_top_level_fields|].
  split; [apply Fields_functional|].
  now apply split_cpp_args_ascii.
Qed.

Lemma split_cpp_args_top_level_fields_witness :
  ascii_only (lit "int, cocos2d::CCPoint const&, ") /\
  split_cpp_args (lit "int, cocos2d::CCPoint const&, ") =
    Ok [lit "int"; lit "cocos2d::CCPoint const&"; lit ""].
Proof.
  assert (Ha : ascii_only (lit "int, cocos2d::CCPoint const&, "))
    by (repeat constructor).
  split; [exact Ha|].
  destruct split_cpp_args_top_level_fields as [H _].
  destruct (H _ Ha) as (fs & _ & Huniq & ->).
  rewrite <- (Huniq _ (Fields_top_level_fields _ 0)).
  vm_compute. reflexivity.
Defined.

(** C3, as stated, fails outside ASCII: the one-character text U+00E9 has
    itself as only piece, but the splitter raises when it decodes its
    buffer; and the two characters U+00C3 U+00A9 come back as the single
    character U+00E9. *)
Lemma split_cpp_args_non_ascii_counterexample :
  Fields 0 [233%N] [[233%N]] /\
  split_cpp_args [233%N] = Raise UnicodeDecodeError /\
  split_cpp_args [195; 169]%N = Ok [[233%N]] /\
  ~ (forall data,
       exists fs,
         Fields 0 data fs /\
         split_cpp_args data = Ok (map strip (drop_empty_last fs))).
Proof.
  split; [apply (Fields_top_level_fields [233%N] 0)|].
  split; [reflexivity|]. split; [reflexivity|].
  intros H. destruct (H [233%N]) as (fs & _ & Hs). discriminate Hs.
Qed.

(** ** The brace notation *)

(** C7, as stated, fails on a thunk: after the braces and the text up to
    the first comma are gone, the extraction for signatures without braces
    keeps the parenthesis that closes the thunk and gives the argument
    "int)"; the code gives "int".  Nor does the code look at the nesting of
    the comma it cuts at: in the second signature the first comma lies
    inside '<...>', and the code cuts there. *)
Lemma thunk_arguments_counterexample :
  strip_outer_braces thunk_signature =
    lit "virtual override thunk({offset(-8)}, Foo::bar(int))" /\
  after_first_top_level_comma (strip_outer_braces thunk_signature) =
    lit " Foo::bar(int))" /\
  described_brace_arguments thunk_signature = Ok [lit "int)"] /\
  _demangle_arguments thunk_signature = Ok [lit "int"] /\
  _demangle_arguments thunk_signature <>
    described_brace_arguments thunk_signature /\
  described_brace_arguments (lit "{T<a, g(b)>, f(int)}") = Ok [lit "int"] /\
  _demangle_arguments (lit "{T<a, g(b)>, f(int)}") = Ok [lit "b)>, f(int"].
Proof.
  repeat split; try reflexivity. discriminate.
Qed.

(** ** Text operations on a signature in brace notation *)

Lemma dropwhile_app_stop (f : char -> bool) (h : str) (c : char) (t : str) :
  f c = false -> dropwhile f (h ++ c :: t) = dropwhile f h ++ c :: t.
Proof.
  intros Hc. induction h as [|x h IH]; cbn [app dropwhile].
  - now rewrite Hc.
  - destruct (f x); [exact IH|reflexivity].
Qed.

Lemma dropwhile_repeat (f : char -> bool) (c : char) (n : nat) (s : str) :
  f c = true -> dropwhile f (repeat c n ++ s) = dropwhile f s.
Proof.
  intros Hc. induction n as [|n IH]; cbn [repeat app dropwhile]; [reflexivity|].
  now rewrite Hc.
Qed.

Lemma dropwhile_incl (f : char -> bool) (s : str) (x : char) :
  In x (dropwhile f s) -> In x s.
Proof.
  induction s as [|c s IH]; cbn [dropwhile]; [tauto|].
  destruct (f c); [right; auto|auto].
Qed.

Lemma rev_repeat (c : char) (n : nat) : rev (repeat c n) = repeat c n.
Proof.
  induction n as [|n IH]; [reflexivity|].
  cbn [repeat rev]. rewrite IH. symmetry. apply repeat_cons.
Qed.

Lemma split1_cut (c : char) (h t : str) :
  ~ In c h -> split1 c (h ++ c :: t) = [h; t].
Proof.
  induction h as [|x h IH]; intros Hin; cbn [app split1].
  - now rewrite N.eqb_refl.
  - destruct (N.eqb_spec x c) as [->|_]; [cbn in Hin; tauto|].
    rewrite IH; [reflexivity|]. cbn in Hin. tauto.
Qed.

Lemma rsplit1_last (c : char) (s : str) :
  rsplit1 c (s ++ [c]) = [s; []].
Proof.
  unfold rsplit1. rewrite rev_unit. cbn [split1]. rewrite N.eqb_refl.
  now rewrite rev_involutive.
Qed.

Lemma rstrip_chars_repeat (c : char) (n : nat) (s : str) :
  (forall x, s <> x ++ [c]) -> rstrip_chars [c] (s ++ repeat c n) = s.
Proof.
  intros Hs. unfold rstrip_chars, lstrip_chars.
  rewrite rev_app_distr, rev_repeat.
  rewrite dropwhile_repeat by (cbn; now rewrite N.eqb_refl).
  destruct (rev s) as [|x r] eqn:E.
  - apply (f_equal (@rev char)) in E. rewrite rev_involutive in E. now subst.
  - cbn [dropwhile existsb]. destruct (N.eqb_spec x c) as [->|_].
    + exfalso. apply (Hs (rev r)).
      apply (f_equal (@rev char)) in E. rewrite rev_involutive in E.
      exact E.
    + cbn [orb]. rewrite <- E. apply rev_involutive.
Qed.

Lemma repeat_snoc (c : char) (n : nat) : repeat c (S n) = repeat c n ++ [c].
Proof. apply repeat_cons. Qed.

(** C7, as the code has it.  For a signature in brace notation
    [{ head , name ( inner ) ... ) }], where [head] holds no comma, [name]
    no opening parenthesis and [inner] does not end in a closing
    parenthesis, the arguments are those of [inner]: the braces at both
    ends are stripped, the text up to and including the first comma is
    discarded, the text after the first opening parenthesis is taken, and
    every closing parenthesis at its end is removed, the one of the list
    and those of the enclosing notation, before the splitter runs. *)
Theorem brace_notation_arguments (n m k : nat) (head name inner : str) :
  ~ In Splitter.comma head ->
  ~ In paren_open name ->
  (forall x, inner <> x ++ [paren_close]) ->
  _demangle_arguments
    (repeat brace_open (S n) ++ head ++ Splitter.comma :: name ++
     paren_open :: inner ++ repeat paren_close (S k) ++
     repeat brace_close (S m)) =
    split_cpp_args inner.
Proof.
  intros Hhead Hname Hinner. unfold _demangle_arguments.
  change (lit "{") with [brace_open]. change (lit "}") with [brace_close].
  change (lit ")") with [paren_close].
  assert (Hc : contains [brace_open]
                 (repeat brace_open (S n) ++ head ++ Splitter.comma :: name ++
                  paren_open :: inner ++ repeat paren_close (S k) ++
                  repeat brace_close (S m)) = true) by reflexivity.
  rewrite Hc. clear Hc.
  unfold lstrip_chars at 1.
  rewrite dropwhile_repeat by reflexivity.
  rewrite dropwhile_app_stop by reflexivity.
  set (head' := dropwhile _ head).
  assert (Hhead' : ~ In Splitter.comma head')
    by (intros Hin; apply Hhead; eapply dropwhile_incl; exact Hin).
  assert (E : head' ++ Splitter.comma :: name ++ paren_open :: inner ++
              repeat paren_close (S k) ++ repeat brace_close (S m) =
              (head' ++ Splitter.comma :: name ++ paren_open :: inner ++
               repeat paren_close (S k)) ++ repeat brace_close (S m)).
  { rewrite <- app_assoc. cbn [app]. f_equal. f_equal.
    rewrite <- app_assoc. cbn [app]. f_equal. f_equal.
    now rewrite <- app_assoc. }
  rewrite E. clear E.
  rewrite rstrip_chars_repeat.
  2:{ intros x Hx. rewrite repeat_snoc in Hx.
      assert (E : head' ++ Splitter.comma :: name ++ paren_open :: inner ++
                  repeat paren_close k ++ [paren_close] =
                  (head' ++ Splitter.comma :: name ++ paren_open :: inner ++
                   repeat paren_close k) ++ [paren_close]).
      { rewrite <- app_assoc. cbn [app]. f_equal. f_equal.
        rewrite <- app_assoc. cbn [app]. f_equal. f_equal.
        now rewrite <- app_assoc. }
      rewrite E in Hx. apply app_inj_tail in Hx as [_ Hx]. discriminate Hx. }
  rewrite split1_cut by assumption. cbn [last_item last].
  rewrite split1_cut by assumption. cbn [last_item last].
  rewrite repeat_snoc, app_assoc, rsplit1_last. cbn [first_item hd].
  now rewrite rstrip_chars_repeat.
Qed.

Lemma brace_notation_arguments_witness :
  ~ In Splitter.comma (lit "virtual override thunk({offset(-8)}") /\
  ~ In paren_open (lit " Foo::bar") /\
  _demangle_arguments
    (lit "{virtual override thunk({offset(-8)}, Foo::bar(int, float))}") =
    Ok [lit "int"; lit "float"].
Proof.
  assert (Hhead : ~ In Splitter.comma
                    (lit "virtual override thunk({offset(-8)}"))
    by (cbn; intuition discriminate).
  assert (Hname : ~ In paren_open (lit " Foo::bar"))
    by (cbn; intuition discriminate).
  split; [exact Hhead|]. split; [exact Hname|].
  transitivity (split_cpp_args (lit "int, float")); [|reflexivity].
  apply (brace_notation_arguments 0 0 1
           (lit "virtual override thunk({offset(-8)}")
           (lit " Foo::bar") (lit "int, float") Hhead Hname).
  intros x Hx. apply (f_equal (@rev char)) in Hx.
  rewrite rev_unit in Hx. discriminate Hx.
Defined.

(** * Further properties of the code *)

(** ** The this-call heuristic *)

Lemma contains_occurs (sub s : str) :
  contains sub s = true <-> occurs_in sub s.
Proof.
  unfold occurs_in. induction s as [|c r IH].
  - cbn [contains]. rewrite orb_false_r, startswith_prefix. split.
    + intros [rest H]. exists [], rest. exact H.
    + intros (pre & post & H). destruct pre as [|x pre]; [|discriminate H].
      exists post. exact H.
  - cbn [contains]. rewrite orb_true_iff, startswith_prefix, IH. split.
    + intros [[rest H]|(pre & post & H)].
      * exists [], rest. exact H.
      * exists (c :: pre), post. now rewrite H.
    + intros (pre & post & H). destruct pre as [|x pre].
      * left. exists post. exact H.
      * right. injection H as _ H. exists pre, post. exact H.
Qed.

Lemma split_go_nonempty (sep : str) (s : str) :
  forall skip cur, 1 <= length (split_go sep skip cur s).
Proof.
  induction s as [|c r IH]; intros skip cur; cbn [split_go length]; [lia|].
  destruct skip; [|apply IH].
  destruct (startswith sep (c :: r)); [cbn [length]; lia|apply IH].
Qed.

(** [split] cuts at least once exactly when the separator occurs. *)
Lemma split_cuts_iff_contains (sep s : str) :
  sep <> [] -> (2 <= length (split sep s) <-> contains sep s = true).
Proof.
  intros Hsep. unfold split. generalize (@nil char) as cur.
  induction s as [|c r IH]; intros cur.
  - destruct sep as [|a sep]; [congruence|]. cbn. split; [lia|discriminate].
  - cbn [split_go contains].
    destruct (startswith sep (c :: r)) eqn:E.
    + cbn [length orb]. pose proof (split_go_nonempty sep r (length sep - 1) []).
      split; [reflexivity|lia].
    + cbn [orb]. apply IH.
Qed.

(** X1. [_is_this_call] answers for every record whose namespace has been
    assigned, and it answers True exactly when the namespace is not NONE or
    the text "::" occurs somewhere in the signature it is given, argument
    types included; on a record whose namespace is still unset it raises
    [AttributeError]. *)
Theorem is_this_call_verdict (f : Function) (func : str) :
  (forall ns, namespaceEnum f = Some ns ->
     exists v, _is_this_call f func = Ok v /\
               (v = true <-> ns <> NONE \/ occurs_in (lit "::") func)) /\
  (namespaceEnum f = None -> _is_this_call f func = Raise AttributeError).
Proof.
  unfold _is_this_call. split.
  - intros ns ->. cbn [getattr rbind].
    assert (Hlen : (2 <=? length (split (lit "::") func)) = true <->
                   occurs_in (lit "::") func).
    { rewrite Nat.leb_le, split_cuts_iff_contains by discriminate.
      apply contains_occurs. }
    assert (Hns : negb (NamespaceEnum_eqb ns NONE) = true <-> ns <> NONE)
      by (destruct ns; cbn; split; congruence).
    destruct (negb (NamespaceEnum_eqb ns NONE)
              || (2 <=? length (split (lit "::") func))) eqn:E.
    + exists true. split; [reflexivity|]. split; [|reflexivity]. intros _.
      apply orb_true_iff in E. tauto.
    + exists false. split; [reflexivity|]. split; [discriminate|].
      apply orb_false_iff in E as [E1 E2]. intros [H|H].
      * apply Hns in H. congruence.
      * apply Hlen in H. congruence.
  - intros ->. reflexivity.
Qed.

Lemma is_this_call_verdict_witness :
  exists v,
    _is_this_call (failure_record (lit "_Zxx")) (lit "foo(std::string)") =
      Ok v /\
    (v = true <-> NONE <> NONE \/ occurs_in (lit "::") (lit "foo(std::string)")).
Proof.
  destruct (is_this_call_verdict (failure_record (lit "_Zxx"))
              (lit "foo(std::string)")) as [H _].
  apply (H NONE). reflexivity.
Defined.

Lemma find_namespace_occurs (sig : str) :
  _find_namespace sig <> NONE -> occurs_in (lit "::") sig.
Proof.
  unfold _find_namespace. intros H.
  destruct (startswith (lit "cococs2d::") sig) eqn:Ec.
  { apply startswith_prefix in Ec as [rest ->].
    exists (lit "cococs2d"), rest. reflexivity. }
  destruct (startswith (lit "std::") sig) eqn:Es.
  { apply startswith_prefix in Es as [rest ->].
    exists (lit "std"), rest. reflexivity. }
  destruct (startswith (lit "pugi::") sig) eqn:Ep; [|congruence].
  apply startswith_prefix in Ep as [rest ->].
  exists (lit "pugi"), rest. reflexivity.
Qed.

(** X2. On a record whose namespace was computed from the signature, as
    construction does, the namespace test of the heuristic adds nothing:
    the verdict is True exactly when "::" occurs in the signature, because
    every recognised prefix ends in "::". *)
Theorem is_this_call_is_scope_test (f : Function) (sig : str) :
  namespaceEnum f = Some (_find_namespace sig) ->
  (_is_this_call f sig = Ok true <-> occurs_in (lit "::") sig) /\
  (_is_this_call f sig = Ok false <-> ~ occurs_in (lit "::") sig).
Proof.
  intros Hns.
  destruct (is_this_call_verdict f sig) as [H _].
  destruct (H _ Hns) as (v & Hv & Hiff). rewrite Hv.
  assert (Hv' : v = true <-> occurs_in (lit "::") sig).
  { rewrite Hiff. split; [|auto].
    intros [Hn|Ho]; [now apply find_namespace_occurs|exact Ho]. }
  destruct Hv' as [H1 H2].
  destruct v; repeat split; intros; try reflexivity; try discriminate; auto.
  - exfalso. auto.
  - specialize (H2 H0). discriminate.
  - intros Ho. specialize (H2 Ho). discriminate.
Qed.

Lemma is_this_call_is_scope_test_witness :
  _is_this_call
    (success_record (lit "_Z3fooSs") (lit "foo(std::string)")
       [lit "std::string"])
    (lit "foo(std::string)") = Ok true.
Proof.
  apply (is_this_call_is_scope_test
           (success_record (lit "_Z3fooSs") (lit "foo(std::string)")
              [lit "std::string"])
           (lit "foo(std::string)") eq_refl).
  exists (lit "foo(std"), (lit "string)"). reflexivity.
Defined.

(** ** Arguments of a signature without braces *)

Lemma contains_char (c : char) (s : str) :
  contains [c] s = true <-> In c s.
Proof.
  induction s as [|x r IH]; cbn [contains startswith In].
  - split; [discriminate|tauto].
  - rewrite orb_true_iff, andb_true_r, N.eqb_eq, IH. split; intros [H|H]; auto.
Qed.

Lemma contains_char_false (c : char) (s : str) :
  ~ In c s -> contains [c] s = false.
Proof.
  intros H. destruct (contains [c] s) eqn:E; [|reflexivity].
  apply contains_char in E. tauto.
Qed.

Lemma split1_none (c : char) (s : str) : ~ In c s -> split1 c s = [s].
Proof.
  induction s as [|x r IH]; intros H; cbn [split1]; [reflexivity|].
  destruct (N.eqb_spec x c) as [->|_]; [cbn in H; tauto|].
  rewrite IH; [reflexivity|]. cbn in H. tauto.
Qed.

Lemma rsplit1_cut (c : char) (h t : str) :
  ~ In c t -> rsplit1 c (h ++ c :: t) = [h; t].
Proof.
  intros H. unfold rsplit1.
  rewrite rev_app_distr. cbn [rev]. rewrite <- app_assoc. cbn [app].
  rewrite split1_cut by (now rewrite <- in_rev).
  now rewrite !rev_involutive.
Qed.

Lemma rsplit1_none (c : char) (s : str) : ~ In c s -> rsplit1 c s = [s].
Proof.
  intros H. unfold rsplit1.
  rewrite split1_none by (now rewrite <- in_rev).
  now rewrite rev_involutive.
Qed.

Lemma demangle_arguments_plain (name inner suffix : str) :
  ~ In brace_open (name ++ paren_open :: inner ++ paren_close :: suffix) ->
  ~ In paren_open name ->
  ~ In paren_close suffix ->
  _demangle_arguments (name ++ paren_open :: inner ++ paren_close :: suffix) =
    split_cpp_args inner.
Proof.
  intros Hbrace Hname Hsuffix. unfold _demangle_arguments.
  change (lit "{") with [brace_open]. change (lit "(") with [paren_open].
  rewrite contains_char_false by assumption.
  assert (Hp : contains [paren_open]
                 (name ++ paren_open :: inner ++ paren_close :: suffix) = true).
  { apply contains_char, in_or_app. right. now left. }
  rewrite Hp, split1_cut by assumption. cbn [last_item last].
  rewrite rsplit1_cut by assumption. reflexivity.
Qed.

(** X3. For a signature without brace, [name(inner)suffix] with no opening
    parenthesis in [name] and no closing one in [suffix], the arguments are
    those of [inner]: the text between the first opening and the last
    closing parenthesis, whatever parentheses [inner] holds itself; the
    qualifiers after the list are ignored.  When [inner] is ASCII text the
    call returns, with the trimmed pieces of [inner] between its commas at
    nesting depth 0. *)
Theorem plain_signature_arguments (name inner suffix : str) :
  ~ In brace_open (name ++ paren_open :: inner ++ paren_close :: suffix) ->
  ~ In paren_open name ->
  ~ In paren_close suffix ->
  _demangle_arguments (name ++ paren_open :: inner ++ paren_close :: suffix) =
    split_cpp_args inner /\
  (ascii_only inner ->
   _demangle_arguments (name ++ paren_open :: inner ++ paren_close :: suffix) =
     Ok (trimmed_fields inner)).
Proof.
  intros Hb Hn Hs. rewrite demangle_arguments_plain by assumption.
  split; [reflexivity|]. apply split_cpp_args_ascii.
Qed.

Lemma plain_signature_arguments_witness :
  _demangle_arguments (lit "Foo::set(void (*)(int), float) const") =
    Ok [lit "void (*)(int)"; lit "float"].
Proof.
  transitivity (split_cpp_args (lit "void (*)(int), float")); [|reflexivity].
  refine (proj1 (plain_signature_arguments (lit "Foo::set")
                   (lit "void (*)(int), float") (lit " const") _ _ _));
    cbn; intuition discriminate.
Defined.

(** X4. The edges of that extraction: a signature with neither brace nor
    parenthesis (a variable, say) has no argument; and when no closing
    parenthesis follows the first opening one, all the text after it is
    taken as the argument list. *)
Theorem unparenthesised_signature_arguments (func name rest : str) :
  (~ In brace_open func -> ~ In paren_open func ->
   _demangle_arguments func = Ok []) /\
  (~ In brace_open (name ++ paren_open :: rest) ->
   ~ In paren_open name -> ~ In paren_close rest ->
   _demangle_arguments (name ++ paren_open :: rest) = split_cpp_args rest).
Proof.
  unfold _demangle_arguments.
  change (lit "{") with [brace_open]. change (lit "(") with [paren_open].
  split.
  - intros Hb Hp. now rewrite !contains_char_false by assumption.
  - intros Hb Hn Hr. rewrite contains_char_false by assumption.
    assert (Hp : contains [paren_open] (name ++ paren_open :: rest) = true).
    { apply contains_char, in_or_app. right. now left. }
    rewrite Hp, split1_cut by assumption. cbn [last_item last].
    now rewrite rsplit1_none by assumption.
Qed.

Lemma unparenthesised_signature_arguments_witness :
  _demangle_arguments (lit "Foo::counter") = Ok [] /\
  _demangle_arguments (lit "f(int, long") = Ok [lit "int"; lit "long"].
Proof.
  destruct (unparenthesised_signature_arguments (lit "Foo::counter")
              (lit "f") (lit "int, long")) as [H1 H2].
  split.
  - apply H1; cbn; intuition discriminate.
  - transitivity (split_cpp_args (lit "int, long")); [|reflexivity].
    apply H2; cbn; intuition discriminate.
Defined.

(** ** Characters outside the single-byte range *)

Lemma step_wide (st : Splitter.state) (c : char) :
  (256 <= c)%N -> Splitter.step st c = Raise ValueError.
Proof.
  intros Hc. unfold Splitter.step, Splitter.ord, Bytearray.append.
  assert (H1 : (c =? Splitter.lt)%N = false)
    by (apply N.eqb_neq; unfold Splitter.lt; lia).
  assert (H2 : (c =? Splitter.gt)%N = false)
    by (apply N.eqb_neq; unfold Splitter.gt; lia).
  assert (H3 : (c =? Splitter.comma)%N = false)
    by (apply N.eqb_neq; unfold Splitter.comma; lia).
  assert (H4 : (c <? 256)%N = false) by (apply N.ltb_ge; lia).
  now rewrite H1, H2, H3, H4.
Qed.

Lemma loop_wide (c : char) (data : str) :
  In c data -> (256 <= c)%N ->
  forall st, exists e,
    Splitter.loop st data = Raise e /\ is_ValueError e = true.
Proof.
  intros Hin Hc. induction data as [|d r IH]; intros st; [destruct Hin|].
  cbn [Splitter.loop].
  destruct (Splitter.step st d) as [st'|e] eqn:E; cbn [rbind].
  - destruct Hin as [->|Hin]; [rewrite step_wide in E by assumption;
                                discriminate E|].
    now apply IH.
  - exists e. split; [reflexivity|]. eapply step_raises; eauto.
Qed.

(** X5. The splitter never returns on text that holds a character above
    U+00FF: it raises a [ValueError] (the buffer refuses the character, or
    an earlier piece fails to decode first), wherever the character stands
    and whatever surrounds it. *)
Theorem split_cpp_args_refuses_wide_characters (c : char) (data : str) :
  In c data -> (256 <= c)%N ->
  exists e, split_cpp_args data = Raise e /\ is_ValueError e = true.
Proof.
  intros Hin Hc. unfold split_cpp_args.
  destruct (loop_wide c data Hin Hc
              {| Splitter.args := []; Splitter.b := [];
                 Splitter.followed_by := 0 |}) as (e & -> & He).
  exists e. auto.
Qed.

Lemma split_cpp_args_refuses_wide_characters_witness :
  exists e,
    split_cpp_args (lit "int, " ++ [0x4E2D%N] ++ lit "<T>") = Raise e /\
    is_ValueError e = true.
Proof.
  apply (split_cpp_args_refuses_wide_characters 0x4E2D%N).
  - cbn. tauto.
  - cbv. discriminate.
Defined.

(** X6. A name that the demangler accepts still gives the "FAILED" record
    when the argument list of its signature holds a character above
    U+00FF: the record has no argument, tag NONE and an empty slot map, and
    [add_func] appends it like the record of a rejected name. *)
Theorem wide_character_signature_is_failed
    (demangle : str -> option str) (elf : ELF)
    (mangled name inner suffix : str) (c : char) :
  demangle mangled =
    Some (name ++ paren_open :: inner ++ paren_close :: suffix) ->
  ~ In brace_open (name ++ paren_open :: inner ++ paren_close :: suffix) ->
  ~ In paren_open name ->
  ~ In paren_close suffix ->
  In c inner -> (256 <= c)%N ->
  new_Function demangle mangled = Ok (failure_record mangled) /\
  add_func demangle elf mangled =
    Ok {| functions := functions elf ++ [failure_record mangled];
          version := version elf |}.
Proof.
  intros Hd Hb Hn Hs Hin Hc.
  assert (Hr : record_of demangle mangled = failure_record mangled).
  { unfold record_of. rewrite Hd, demangle_arguments_plain by assumption.
    unfold split_cpp_args.
    destruct (loop_wide c inner Hin Hc
                {| Splitter.args := []; Splitter.b := [];
                   Splitter.followed_by := 0 |}) as (e & -> & _).
    reflexivity. }
  rewrite new_Function_record_of, add_func_run, Hr. split; reflexivity.
Qed.

Lemma wide_character_signature_is_failed_witness :
  new_Function sample_demangle (lit "_Z1g2" ++ [256%N]) =
    Ok (failure_record (lit "_Z1g2" ++ [256%N])).
Proof.
  apply (wide_character_signature_is_failed sample_demangle
           {| functions := []; version := lit "2.2074" |}
           (lit "_Z1g2" ++ [256%N]) (lit "g") [256%N] [] 256%N).
  - vm_compute; reflexivity.
  - cbn. intuition discriminate.
  - cbn. intuition discriminate.
  - cbn. tauto.
  - cbn. tauto.
  - cbv. discriminate.
Defined.

(** ** Trimmed arguments and the slot map *)

Lemma dropwhile_head (f : char -> bool) (s : str) (c : char) (r : str) :
  dropwhile f s = c :: r -> f c = false.
Proof.
  induction s as [|x s IH]; cbn [dropwhile]; [discriminate|].
  destruct (f x) eqn:E; [exact IH|].
  intros H. injection H as <- _. exact E.
Qed.

Lemma dropwhile_fixed (f : char -> bool) (c : char) (r : str) :
  f c = false -> dropwhile f (c :: r) = c :: r.
Proof. intros H. cbn [dropwhile]. now rewrite H. Qed.

Lemma dropwhile_idem (f : char -> bool) (s : str) :
  dropwhile f (dropwhile f s) = dropwhile f s.
Proof.
  destruct (dropwhile f s) as [|c r] eqn:E; [reflexivity|].
  apply dropwhile_fixed. eapply dropwhile_head; eauto.
Qed.

(** The shape of a trimmed text: empty, or a first character that is not
    white space followed by the rest without its trailing white space. *)
Lemma strip_shape (s : str) :
  strip s = [] \/
  exists c r, dropwhile isspace s = c :: r /\ isspace c = false /\
              strip s = c :: rev (dropwhile isspace (rev r)).
Proof.
  unfold strip. destruct (dropwhile isspace s) as [|c r] eqn:E; [now left|].
  right. exists c, r. pose proof (dropwhile_head _ _ _ _ E) as Hc.
  split; [reflexivity|]. split; [exact Hc|].
  cbn [rev].
  rewrite (dropwhile_app_stop isspace (rev r) c [] Hc).
  now rewrite rev_unit.
Qed.

Lemma strip_idempotent (s : str) : strip (strip s) = strip s.
Proof.
  destruct (strip_shape s) as [->|(c & r & _ & Hc & ->)]; [reflexivity|].
  unfold strip. rewrite dropwhile_fixed by assumption.
  cbn [rev]. rewrite rev_involutive.
  rewrite (dropwhile_app_stop isspace _ c [] Hc), dropwhile_idem.
  now rewrite rev_unit.
Qed.

Lemma strip_edges (s : str) :
  (forall c r, strip s = c :: r -> isspace c = false) /\
  (forall c r, strip s = r ++ [c] -> isspace c = false).
Proof.
  split; intros c r H.
  - destruct (strip_shape s) as [E|(c' & r' & _ & Hc & E)];
      rewrite E in H; [discriminate|]. now injection H as <- _.
  - unfold strip in H. apply (f_equal (@rev char)) in H.
    rewrite rev_involutive, rev_unit in H.
    eapply dropwhile_head; eauto.
Qed.

Lemma step_trimmed (st st' : Splitter.state) (d : char) :
  Forall (fun a => strip a = a) (Splitter.args st) ->
  Splitter.step st d = Ok st' ->
  Forall (fun a => strip a = a) (Splitter.args st').
Proof.
  intros Hst. unfold Splitter.step.
  repeat match goal with
         | |- context [if ?c then _ else _] => destruct c
         end;
    match goal with
    | |- context [Bytearray.append ?b ?x] =>
        destruct (Bytearray.append b x); cbn [rbind]; [|discriminate];
        intros H; injection H as <-; exact Hst
    | |- context [Bytearray.decode ?b] =>
        destruct (Bytearray.decode b); cbn [rbind]; [|discriminate];
        intros H; injection H as <-; cbn [Splitter.args];
        apply Forall_app; split; [exact Hst|];
        constructor; [apply strip_idempotent|constructor]
    end.
Qed.

Lemma loop_trimmed (data : str) :
  forall st st',
    Forall (fun a => strip a = a) (Splitter.args st) ->
    Splitter.loop st data = Ok st' ->
    Forall (fun a => strip a = a) (Splitter.args st').
Proof.
  induction data as [|d r IH]; intros st st' Hst; cbn [Splitter.loop].
  - intros H. now injection H as <-.
  - destruct (Splitter.step st d) as [st1|e] eqn:E; cbn [rbind];
      [|discriminate].
    apply IH. eapply step_trimmed; eauto.
Qed.

Lemma split_cpp_args_trimmed (data : str) (l : list str) :
  split_cpp_args data = Ok l -> Forall (fun a => strip a = a) l.
Proof.
  unfold split_cpp_args.
  destruct (Splitter.loop _ data) as [st|e] eqn:E; cbn [rbind];
    [|discriminate].
  apply loop_trimmed in E; [|constructor].
  destruct (Splitter.b st) as [|x b]; [intros H; now injection H as <-|].
  destruct (Bytearray.decode (x :: b)); cbn [rbind]; [|discriminate].
  intros H. injection H as <-. apply Forall_app. split; [exact E|].
  constructor; [apply strip_idempotent|constructor].
Qed.

(** X7. Whatever the text, an argument that the splitter returns neither
    begins nor ends with white space, so trimming it again changes
    nothing. *)
Theorem split_cpp_args_returns_trimmed (data : str) (l : list str) :
  split_cpp_args data = Ok l ->
  forall a, In a l ->
    strip a = a /\
    (forall c r, a = c :: r -> isspace c = false) /\
    (forall c r, a = r ++ [c] -> isspace c = false).
Proof.
  intros H a Hin.
  pose proof (split_cpp_args_trimmed data l H) as Hall.
  rewrite Forall_forall in Hall. specialize (Hall a Hin).
  split; [exact Hall|]. rewrite <- Hall. apply strip_edges.
Qed.

Lemma split_cpp_args_returns_trimmed_witness :
  strip (lit "cocos2d::CCPoint const&") = lit "cocos2d::CCPoint const&".
Proof.
  apply (split_cpp_args_returns_trimmed
           (lit "  int ,   cocos2d::CCPoint const&  ")
           [lit "int"; lit "cocos2d::CCPoint const&"]).
  - vm_compute; reflexivity.
  - right. left. reflexivity.
Defined.

Lemma map_strip_trimmed (l : list str) :
  Forall (fun a => strip a = a) l -> map strip l = l.
Proof.
  induction 1 as [|a l Ha _ IH]; [reflexivity|].
  cbn [map]. now rewrite Ha, IH.
Qed.

Lemma demangle_arguments_trimmed (func : str) (l : list str) :
  _demangle_arguments func = Ok l -> Forall (fun a => strip a = a) l.
Proof.
  unfold _demangle_arguments.
  destruct (contains (lit "{") func); [apply split_cpp_args_trimmed|].
  destruct (contains (lit "(") func); [apply split_cpp_args_trimmed|].
  intros H. injection H as <-. constructor.
Qed.

Lemma dict_get_combine (ks : list str) :
  forall (vs : list str) (k : nat) (key v : str),
    NoDup ks ->
    nth_error ks k = Some key -> nth_error vs k = Some v ->
    dict_get (combine ks vs) key = Some v.
Proof.
  induction ks as [|k0 ks IH]; intros vs k key v Hnd Hk Hv.
  - destruct k; discriminate Hk.
  - destruct vs as [|v0 vs]; [destruct k; discriminate Hv|].
    cbn [combine dict_get]. inversion Hnd as [|? ? Hnotin Hnd']; subst.
    destruct k as [|k].
    + cbn in Hk, Hv. injection Hk as ->. injection Hv as ->.
      assert (E : str_eqb key key = true) by now apply str_eqb_eq.
      now rewrite E.
    + cbn in Hk, Hv.
      assert (E : str_eqb k0 key = false).
      { apply str_eqb_neq. intros ->. apply Hnotin.
        eapply nth_error_In; eauto. }
      rewrite E. eapply IH; eauto.
Qed.

(** X8. In the record of a construction that ran to its end, the slot map
    has pairwise distinct keys, so no argument overwrites another however
    many there are; r0 holds "this", and the k-th argument (from 0) is
    found, unchanged, under the name of slot k+1. *)
Theorem slot_map_lookup
    (demangle : str -> option str) (mangled : str) (f : Function) :
  post_init_try demangle (attrs_init mangled) = (f, Ok tt) ->
  NoDup (map fst (arg_offsets f)) /\
  map snd (arg_offsets f) = lit "this" :: args f /\
  dict_get (arg_offsets f) (lit "r0") = Some (lit "this") /\
  (forall k a, nth_error (args f) k = Some a ->
               dict_get (arg_offsets f) (slot_name (S k)) = Some a).
Proof.
  intros Hrun. rewrite post_init_try_run in Hrun.
  destruct (demangle mangled) as [sig|]; [|discriminate].
  destruct (_demangle_arguments sig) as [a|e] eqn:Ha; [|discriminate].
  injection Hrun as <-. cbn [success_record args arg_offsets].
  rewrite (map_strip_trimmed a (demangle_arguments_trimmed sig a Ha)).
  assert (Hkeys : map fst (combine (map slot_name (seq 1 (length a))) a) =
                  map slot_name (seq 1 (length a)))
    by apply combine_slots_keys.
  assert (Hnd : NoDup (map slot_name (seq 0 (S (length a)))))
    by apply slot_names_NoDup.
  split; [cbn [map fst]; rewrite Hkeys; exact Hnd|].
  split.
  { cbn [map snd]. f_equal.
    clear. generalize 1. induction a as [|x a IH]; intros n;
      [reflexivity|]. cbn. now rewrite IH. }
  split; [reflexivity|].
  intros k x Hk.
  change ((lit "r0", lit "this")
            :: combine (map slot_name (seq 1 (length a))) a)
    with (combine (map slot_name (seq 0 (S (length a)))) (lit "this" :: a)).
  apply (dict_get_combine _ _ (S k)); [exact Hnd| |exact Hk].
  assert (Hlt : k < length a)
    by (apply nth_error_Some; rewrite Hk; discriminate).
  assert (E : (S k <? S (length a)) = true) by (apply Nat.ltb_lt; lia).
  rewrite nth_error_map, nth_error_seq, E. reflexivity.
Qed.

Lemma slot_map_lookup_witness :
  dict_get
    (arg_offsets
       (success_record (lit "_ZN7cococs2d9SomeClass6methodEi")
          (lit "cococs2d::SomeClass::method(int)") [lit "int"]))
    (lit "r1") = Some (lit "int").
Proof.
  destruct (slot_map_lookup sample_demangle
              (lit "_ZN7cococs2d9SomeClass6methodEi")
              (success_record (lit "_ZN7cococs2d9SomeClass6methodEi")
                 (lit "cococs2d::SomeClass::method(int)") [lit "int"]))
    as (_ & _ & _ & H); [vm_compute; reflexivity|].
  apply (H 0). reflexivity.
Defined.

(** ** Argument lists without template brackets, and unbalanced ones *)

Lemma bracket_free_cons (c : char) (s : str) :
  bracket_free (c :: s) ->
  c <> Splitter.lt /\ c <> Splitter.gt /\ bracket_free s.
Proof.
  unfold bracket_free. cbn [In]. intros [H1 H2].
  repeat split; try tauto; intros ->; tauto.
Qed.

Lemma bump_other (d : Z) (c : char) :
  c <> Splitter.lt -> c <> Splitter.gt -> bump d c = d.
Proof.
  intros H1 H2. unfold bump.
  apply N.eqb_neq in H1, H2. now rewrite H1, H2.
Qed.

Lemma split_go_comma_fields (s : str) :
  bracket_free s ->
  forall cur,
    split_go [Splitter.comma] 0 cur s =
      prepend (rev cur) (top_level_fields 0 s).
Proof.
  induction s as [|c r IH]; intros Hs cur.
  - cbn. now rewrite app_nil_r.
  - apply bracket_free_cons in Hs as (Hlt & Hgt & Hr).
    cbn [split_go top_level_fields startswith length Nat.sub].
    rewrite andb_true_r, N.eqb_sym. cbn [Z.eqb].
    destruct (c =? Splitter.comma)%N.
    + rewrite (IH Hr []). cbn [rev].
      rewrite prepend_nil by apply top_level_fields_nonempty.
      cbn [andb prepend]. now rewrite app_nil_r.
    + cbn [andb]. rewrite (IH Hr (c :: cur)), (bump_other 0 c Hlt Hgt).
      cbn [rev]. now rewrite prepend_cons_head.
Qed.

(** X9. On ASCII text without '<' or '>' the splitter is Python's own
    [data.split(",")] followed by trimming: it returns the trimmed pieces
    between all the commas, the last piece only if it is not empty. *)
Theorem split_cpp_args_without_brackets (data : str) :
  ascii_only data -> bracket_free data ->
  split_cpp_args data =
    Ok (map strip (drop_empty_last (split [Splitter.comma] data))).
Proof.
  intros Ha Hb. rewrite split_cpp_args_ascii by assumption.
  unfold trimmed_fields, split.
  rewrite (split_go_comma_fields data Hb []). cbn [rev].
  now rewrite prepend_nil by apply top_level_fields_nonempty.
Qed.

Lemma split_cpp_args_without_brackets_witness :
  split_cpp_args (lit "int, float ,bool") =
    Ok [lit "int"; lit "float"; lit "bool"].
Proof.
  rewrite (split_cpp_args_without_brackets (lit "int, float ,bool")).
  - vm_compute; reflexivity.
  - repeat constructor.
  - split; cbn; intuition discriminate.
Defined.

Lemma top_level_fields_below (s : str) :
  forall d, (d < 0)%Z -> ~ In Splitter.lt s -> top_level_fields d s = [s].
Proof.
  induction s as [|c r IH]; intros d Hd Hlt; [reflexivity|].
  cbn [top_level_fields].
  assert (E : (d =? 0)%Z = false) by (apply Z.eqb_neq; lia).
  rewrite E, andb_false_r.
  rewrite IH; [reflexivity| |cbn in Hlt; tauto].
  unfold bump.
  assert (Hc : (c =? Splitter.lt)%N = false)
    by (apply N.eqb_neq; intros ->; apply Hlt; now left).
  rewrite Hc. destruct (c =? Splitter.gt)%N; lia.
Qed.

Lemma top_level_fields_prefix (pre rest : str) :
  bracket_free pre -> ~ In Splitter.comma pre ->
  forall d, top_level_fields d (pre ++ rest) =
            prepend pre (top_level_fields d rest).
Proof.
  induction pre as [|c pre IH]; intros Hb Hc d.
  - cbn [app]. now rewrite prepend_nil by apply top_level_fields_nonempty.
  - apply bracket_free_cons in Hb as (Hlt & Hgt & Hb).
    cbn [app top_level_fields].
    assert (E : (c =? Splitter.comma)%N = false)
      by (apply N.eqb_neq; intros ->; apply Hc; now left).
    rewrite E. cbn [andb]. rewrite (bump_other d c Hlt Hgt).
    rewrite IH by (assumption || (cbn in Hc; tauto)).
    destruct (top_level_fields d rest); reflexivity.
Qed.

(** X10. A '>' that closes nothing turns the splitting off: when it comes
    before any '<' and any comma, and no '<' follows it, the whole ASCII
    text comes back as one trimmed argument, whatever commas stand after
    the '>'. *)
Theorem unmatched_closing_bracket_joins (pre post : str) :
  ascii_only (pre ++ Splitter.gt :: post) ->
  bracket_free pre -> ~ In Splitter.comma pre ->
  ~ In Splitter.lt post ->
  split_cpp_args (pre ++ Splitter.gt :: post) =
    Ok [strip (pre ++ Splitter.gt :: post)].
Proof.
  intros Ha Hb Hc Hp. rewrite split_cpp_args_ascii by assumption.
  unfold trimmed_fields.
  rewrite top_level_fields_prefix by assumption.
  cbn [top_level_fields]. cbn [N.eqb Pos.eqb andb Splitter.gt Splitter.comma].
  rewrite (top_level_fields_below post (bump 0 Splitter.gt))
    by (assumption || reflexivity).
  cbn [prepend]. unfold drop_empty_last. cbn [last].
  destruct (pre ++ Splitter.gt :: post) eqn:E; [|reflexivity].
  destruct pre; discriminate E.
Qed.

Lemma unmatched_closing_bracket_joins_witness :
  split_cpp_args (lit "T> a, int, float") = Ok [lit "T> a, int, float"].
Proof.
  apply (unmatched_closing_bracket_joins (lit "T") (lit " a, int, float")).
  - repeat constructor.
  - split; cbn; intuition discriminate.
  - cbn; intuition discriminate.
  - cbn; intuition discriminate.
Defined.

(** ** The symbol loops *)

Lemma add_symbols_app (demangle : str -> option str) (n1 n2 : list str)
    (elf : ELF) :
  add_symbols demangle elf (n1 ++ n2) =
    (elf1 <- add_symbols demangle elf n1 ;; add_symbols demangle elf1 n2).
Proof.
  revert elf. induction n1 as [|s n1 IH]; intros elf; [reflexivity|].
  cbn [app add_symbols].
  destruct (startswith (lit "_Z") s); [|apply IH].
  rewrite add_func_run. cbn [rbind]. apply IH.
Qed.

Lemma add_sections_flat (demangle : str -> option str)
    (sections : list elf_section) (elf : ELF) :
  add_sections demangle elf sections =
    add_symbols demangle elf (candidates sections).
Proof.
  revert elf. induction sections as [|[table|] rest IH]; intros elf.
  - reflexivity.
  - cbn [add_sections]. unfold candidates. cbn [map concat].
    rewrite add_symbols_app, add_symbols_run. cbn [rbind].
    rewrite IH. reflexivity.
  - cbn [add_sections]. apply IH.
Qed.

Lemma filter_map_mangled (demangle : str -> option str) (names : list str) :
  map mangled_func
    (filter (fun g => negb (rejectedb g))
       (map (record_of demangle) (filter (startswith (lit "_Z")) names))) =
  filter (fun m => startswith (lit "_Z") m &&
                   negb (rejectedb (record_of demangle m))) names.
Proof.
  induction names as [|m names IH]; [reflexivity|].
  cbn [filter]. destruct (startswith (lit "_Z") m); cbn [andb map filter];
    [|exact IH].
  destruct (rejectedb (record_of demangle m)); cbn [negb map]; [exact IH|].
  rewrite IH. f_equal. apply record_of_constructed.
Qed.

(** X11. The two nested loops of [cli] always run to their end, and they
    do what one pass over the symbol names of all the sections that have a
    table would do: the records already held stay in front, the tag is
    untouched, and the records added are, in table order, those of the
    names that begin with "_Z" and pass the exclusion policy, each one the
    record that construction returns for its name. *)
Theorem add_sections_keeps_table_order
    (demangle : str -> option str) (sections : list elf_section)
    (elf : ELF) :
  exists elf' added,
    add_sections demangle elf sections = Ok elf' /\
    version elf' = version elf /\
    functions elf' = functions elf ++ added /\
    map mangled_func added =
      filter (fun m => startswith (lit "_Z") m &&
                       negb (rejectedb (record_of demangle m)))
             (candidates sections) /\
    Forall (fun f => new_Function demangle (mangled_func f) = Ok f /\
                     ~ rejected f) added.
Proof.
  rewrite add_sections_flat, add_symbols_run.
  eexists. eexists. split; [reflexivity|]. cbn [functions version].
  split; [reflexivity|]. split; [reflexivity|].
  split; [apply filter_map_mangled|].
  apply Forall_forall. intros f Hin.
  apply filter_In in Hin as [Hin Hrej].
  apply in_map_iff in Hin as (m & <- & _).
  rewrite (proj2 (record_of_constructed demangle m)).
  split; [apply new_Function_record_of|].
  apply rejectedb_false. now destruct (rejectedb _).
Qed.


(** ** The aggregate and unset attributes *)

Lemma asdict_populated (f : Function) :
  (populated f /\ exists item, asdict_Function f = Ok item) \/
  (~ populated f /\ asdict_Function f = Raise AttributeError).
Proof.
  unfold populated, asdict_Function.
  destruct (demangled_func f) as [dn|]; cbn [getattr rbind];
    [|right; split; [tauto|reflexivity]].
  destruct (namespaceEnum f) as [ns|]; cbn [getattr rbind];
    [|right; split; [tauto|reflexivity]].
  destruct (namespaceName f) as [nn|]; cbn [getattr rbind];
    [|right; split; [tauto|reflexivity]].
  left. split; [repeat split; discriminate|eauto].
Qed.

Lemma sequence_populated (fs : list Function) :
  (Forall populated fs /\
   exists items, sequence (map asdict_Function fs) = Ok items /\
                 length items = length fs) \/
  (~ Forall populated fs /\
   sequence (map asdict_Function fs) = Raise AttributeError).
Proof.
  induction fs as [|f fs IH].
  - left. split; [constructor|]. exists []. split; reflexivity.
  - cbn [map sequence].
    destruct (asdict_populated f) as [[Hf [item ->]]|[Hf ->]]; cbn [rbind].
    + destruct IH as [[Hfs (items & -> & Hlen)]|[Hfs ->]]; cbn [rbind].
      * left. split; [now constructor|]. exists (item :: items).
        split; [reflexivity|]. cbn [length]. now rewrite Hlen.
      * right. split; [|reflexivity]. intros H. inversion H. tauto.
    + right. split; [|reflexivity]. intros H. inversion H. tauto.
Qed.

(** X13. [as_json] returns exactly when every record of the collection has
    its demangled name, its tag and its tag name assigned; it then lists
    one entry per record and the count of the records.  As soon as one
    record lacks one of them, the call raises [AttributeError], whatever
    the other records are. *)
Theorem as_json_needs_populated_records (elf : ELF) :
  (Forall populated (functions elf) ->
   exists items,
     as_json elf =
       Ok (JObject
             [ (lit "functions", JArray items);
               (lit "total_functions",
                JInt (Z.of_nat (length (functions elf))));
               (lit "gd-version", JString (version elf)) ]) /\
     length items = length (functions elf)) /\
  (~ Forall populated (functions elf) ->
   as_json elf = Raise AttributeError).
Proof.
  unfold as_json.
  destruct (sequence_populated (functions elf))
    as [[Hall (items & -> & Hlen)]|[Hnot ->]]; cbn [rbind].
  - split; [|tauto]. intros _. exists items. auto.
  - split; [tauto|reflexivity].
Qed.

Lemma as_json_needs_populated_records_witness :
  as_json
    {| functions := [failure_record (lit "_Zxx"); attrs_init (lit "_Zyy")];
       version := lit "2.2074" |} = Raise AttributeError.
Proof.
  apply (as_json_needs_populated_records
           {| functions := [failure_record (lit "_Zxx");
                            attrs_init (lit "_Zyy")];
              version := lit "2.2074" |}).
  intros H. cbn [functions] in H.
  inversion H as [|? ? _ H']. inversion H' as [|? ? [Hd _] _].
  apply Hd. reflexivity.
Defined.

(** ** The counter *)

Lemma advance_counter_at (n k : nat) :
  advance n (counter_at k) = counter_at (n + k).
Proof.
  revert k. induction n as [|n IH]; intros k; [reflexivity|].
  cbn [advance]. rewrite next_counter_at. cbn [snd].
  rewrite IH. f_equal. lia.
Qed.

(** X14. After any number [n] of calls of [next] on a fresh counter, the
    register index is [min n 4], so it never passes 4, and the stack
    counter is [n - 4], so it is still 0 as long as a register is left;
    the names issued on the way are pairwise distinct. *)
Theorem counter_invariant (n : nat) :
  OffsetCounter.i (advance n OffsetCounter.init) = Nat.min n 4 /\
  OffsetCounter.stack_val (advance n OffsetCounter.init) = n - 4 /\
  OffsetCounter.i (advance n OffsetCounter.init) <= 4 /\
  (OffsetCounter.i (advance n OffsetCounter.init) < 4 ->
   OffsetCounter.stack_val (advance n OffsetCounter.init) = 0) /\
  NoDup (issue n OffsetCounter.init).
Proof.
  change OffsetCounter.init with (counter_at 0).
  rewrite advance_counter_at, issue_counter_at, Nat.add_0_r.
  unfold counter_at. cbn [OffsetCounter.i OffsetCounter.stack_val].
  repeat split; try lia. apply slot_names_NoDup.
Qed.

Lemma counter_invariant_witness :
  OffsetCounter.i (advance 2 OffsetCounter.init) < 4 /\
  OffsetCounter.stack_val (advance 2 OffsetCounter.init) = 0.
Proof.
  destruct (counter_invariant 2) as (_ & _ & _ & H & _).
  assert (Hlt : OffsetCounter.i (advance 2 OffsetCounter.init) < 4)
    by (vm_compute; lia).
  split; [exact Hlt|exact (H Hlt)].
Defined.

(** ** From the signature to the record *)

(** X15. For a name whose signature [name(inner)suffix] holds no brace, no
    opening parenthesis in [name], no closing one in [suffix] and only
    ASCII characters in [inner], construction returns the full record: the
    signature, the trimmed pieces of [inner] as arguments, the tag and the
    lowercase tag name of the classifier, and a slot map with "this" in r0
    and the arguments, unchanged, in the slots that follow. *)
Theorem plain_signature_record
    (demangle : str -> option str) (mangled name inner suffix : str) :
  demangle mangled =
    Some (name ++ paren_open :: inner ++ paren_close :: suffix) ->
  ~ In brace_open (name ++ paren_open :: inner ++ paren_close :: suffix) ->
  ~ In paren_open name ->
  ~ In paren_close suffix ->
  ascii_only inner ->
  exists f,
    new_Function demangle mangled = Ok f /\
    mangled_func f = mangled /\
    demangled_func f =
      Some (name ++ paren_open :: inner ++ paren_close :: suffix) /\
    args f = trimmed_fields inner /\
    namespaceEnum f =
      Some (_find_namespace
              (name ++ paren_open :: inner ++ paren_close :: suffix)) /\
    namespaceName f =
      Some (lowercase_name
              (_find_namespace
                 (name ++ paren_open :: inner ++ paren_close :: suffix))) /\
    arg_offsets f =
      (lit "r0", lit "this") ::
        combine (map slot_name (seq 1 (length (trimmed_fields inner))))
                (trimmed_fields inner).
Proof.
  intros Hd Hb Hn Hs Ha.
  assert (Hargs : _demangle_arguments
                    (name ++ paren_open :: inner ++ paren_close :: suffix) =
                  Ok (trimmed_fields inner)).
  { rewrite demangle_arguments_plain by assumption.
    now apply split_cpp_args_ascii. }
  eexists. rewrite new_Function_run, Hd, Hargs.
  split; [reflexivity|]. cbn [success_record mangled_func demangled_func args
                              namespaceEnum namespaceName arg_offsets].
  repeat split.
  - f_equal. now destruct (_find_namespace _).
  - rewrite (map_strip_trimmed _ (demangle_arguments_trimmed _ _ Hargs)).
    reflexivity.
Qed.

Lemma plain_signature_record_witness :
  exists f,
    new_Function sample_demangle (lit "_ZN7cococs2d9SomeClass6methodEi") =
      Ok f /\
    args f = [lit "int"] /\
    namespaceEnum f = Some COCOS2D /\
    arg_offsets f = [(lit "r0", lit "this"); (lit "r1", lit "int")].
Proof.
  destruct (plain_signature_record sample_demangle
              (lit "_ZN7cococs2d9SomeClass6methodEi")
              (lit "cococs2d::SomeClass::method") (lit "int") [])
    as (f & Hf & _ & _ & Ha & Hns & _ & Ho).
  - vm_compute; reflexivity.
  - cbn; intuition discriminate.
  - cbn; intuition discriminate.
  - cbn; tauto.
  - repeat constructor.
  - exists f. repeat split; assumption.
Defined.

(** ** Braces anywhere in the signature *)

Lemma rstrip_chars_stop (cs : str) (h : str) (c : char) (t : str) :
  existsb (N.eqb c) cs = false ->
  rstrip_chars cs (h ++ c :: t) = h ++ c :: rstrip_chars cs t.
Proof.
  intros Hc. unfold rstrip_chars, lstrip_chars.
  rewrite rev_app_distr. cbn [rev]. rewrite <- app_assoc. cbn [app].
  rewrite (dropwhile_app_stop _ (rev t) c (rev h) Hc).
  rewrite rev_app_distr. cbn [rev]. rewrite rev_involutive, <- app_assoc.
  reflexivity.
Qed.

Lemma demangle_arguments_after_comma (head tail : str) :
  In brace_open (head ++ Splitter.comma :: tail) ->
  ~ In Splitter.comma head ->
  _demangle_arguments (head ++ Splitter.comma :: tail) =
    split_cpp_args
      (rstrip_chars (lit ")")
         (first_item
            (rsplit1 paren_close
               (last_item
                  (split1 paren_open (rstrip_chars (lit "}") tail)))))).
Proof.
  intros Hb Hc. unfold _demangle_arguments.
  change (lit "{") with [brace_open].
  assert (E : contains [brace_open] (head ++ Splitter.comma :: tail) = true)
    by now apply contains_char.
  rewrite E. unfold lstrip_chars at 1.
  rewrite dropwhile_app_stop by reflexivity.
  rewrite rstrip_chars_stop by reflexivity.
  rewrite split1_cut; [reflexivity|].
  intros Hin. apply Hc. eapply dropwhile_incl; eauto.
Qed.

(** X16. In a signature that holds a brace anywhere, what stands before the
    first comma plays no part in the arguments: two signatures with the
    same text after their first comma get the same arguments.  So for a
    lambda, whose brace notation holds the parameter list, the first
    parameter and everything before it are lost. *)
Theorem text_before_first_comma_is_ignored (head1 head2 tail : str) :
  In brace_open (head1 ++ Splitter.comma :: tail) ->
  In brace_open (head2 ++ Splitter.comma :: tail) ->
  ~ In Splitter.comma head1 ->
  ~ In Splitter.comma head2 ->
  _demangle_arguments (head1 ++ Splitter.comma :: tail) =
    _demangle_arguments (head2 ++ Splitter.comma :: tail).
Proof.
  intros Hb1 Hb2 Hc1 Hc2.
  now rewrite !demangle_arguments_after_comma by assumption.
Qed.

Lemma text_before_first_comma_is_ignored_witness :
  _demangle_arguments
    (lit "foo()::{lambda(int, float)#1}::operator()(int, float) const") =
  _demangle_arguments
    (lit "{, float)#1}::operator()(int, float) const") /\
  _demangle_arguments
    (lit "foo()::{lambda(int, float)#1}::operator()(int, float) const") =
    Ok [lit ")(int"; lit "float"].
Proof.
  split; [|vm_compute; reflexivity].
  apply (text_before_first_comma_is_ignored
           (lit "foo()::{lambda(int") (lit "{")
           (lit " float)#1}::operator()(int, float) const"));
    cbn; intuition discriminate.
Defined.

(** ** The classifier reads the first characters only *)

(** X17. The classifier looks at the very beginning of the signature: one
    that begins with the library's own spelling "cocos2d::" is tagged NONE,
    and so is any signature whose first character is none of 'c', 's' and
    'p', for instance one that begins with a return type or a brace, even
    if a recognised namespace follows. *)
Theorem find_namespace_reads_the_start (c : char) (rest : str) :
  _find_namespace (lit "cocos2d::" ++ rest) = NONE /\
  _find_namespace [] = NONE /\
  (c <> 99%N -> c <> 115%N -> c <> 112%N ->
   _find_namespace (c :: rest) = NONE).
Proof.
  split; [reflexivity|]. split; [reflexivity|].
  intros H1 H2 H3. unfold _find_namespace.
  apply N.eqb_neq in H1, H2, H3.
  change (lit "cococs2d::") with (99%N :: tl (lit "cococs2d::")).
  change (lit "std::") with (115%N :: tl (lit "std::")).
  change (lit "pugi::") with (112%N :: tl (lit "pugi::")).
  cbn [startswith].
  rewrite (N.eqb_sym 99), (N.eqb_sym 115), (N.eqb_sym 112), H1, H2, H3.
  reflexivity.
Qed.

Lemma find_namespace_reads_the_start_witness :
  _find_namespace (lit "void std::sort<int>(int*, int*)") = NONE.
Proof.
  apply (find_namespace_reads_the_start 118%N
           (lit "oid std::sort<int>(int*, int*)")); discriminate.
Defined.

(** ** Exclusion comes after construction *)

(** X18. The exclusion policy reads the record, not the signature.  A name
    whose signature begins with "typeinfo name for ", "typeinfo for " or
    "{vtable" is discarded when its arguments could be extracted; when the
    extraction raised, the record has become the "FAILED" one, which the
    policy lets through, and it is appended. *)
Theorem exclusion_reads_the_record
    (demangle : str -> option str) (elf : ELF) (mangled sig : str) :
  demangle mangled = Some sig ->
  startswith_any
    [lit "typeinfo name for "; lit "typeinfo for "; lit "{vtable"] sig = true ->
  (forall a, _demangle_arguments sig = Ok a ->
             add_func demangle elf mangled = Ok elf) /\
  (forall e, _demangle_arguments sig = Raise e ->
             add_func demangle elf mangled =
               Ok {| functions := functions elf ++ [failure_record mangled];
                     version := version elf |}).
Proof.
  intros Hd Hsig. rewrite add_func_run. unfold record_of. rewrite Hd.
  split.
  - intros a ->.
    assert (E : rejectedb (success_record mangled sig a) = true).
    { unfold rejectedb. cbn [success_record demangled_func args].
      unfold startswith_any in Hsig. cbn [existsb] in Hsig.
      rewrite orb_false_r, orb_assoc in Hsig. rewrite Hsig.
      apply orb_true_r. }
    now rewrite E.
  - intros e ->. reflexivity.
Qed.

Lemma exclusion_reads_the_record_witness :
  add_func
    (fun s => if str_eqb s (lit "_ZTI3Foo")
              then Some (lit "typeinfo for Foo") else None)
    {| functions := []; version := lit "2.2074" |} (lit "_ZTI3Foo") =
    Ok {| functions := []; version := lit "2.2074" |}.
Proof.
  refine (proj1 (exclusion_reads_the_record _ _ (lit "_ZTI3Foo")
                   (lit "typeinfo for Foo") _ _) [] _);
    vm_compute; reflexivity.
Defined.

(** X19. A function that takes an exception pointer is dropped: for a
    signature [name(inner)suffix] without brace and with ASCII arguments,
    as soon as one of the trimmed pieces of [inner] begins with
    "std::__exception_ptr", [add_func] leaves the collection as it was,
    whatever the name and the other arguments are. *)
Theorem exception_pointer_argument_is_dropped
    (demangle : str -> option str) (elf : ELF)
    (mangled name inner suffix arg : str) :
  demangle mangled =
    Some (name ++ paren_open :: inner ++ paren_close :: suffix) ->
  ~ In brace_open (name ++ paren_open :: inner ++ paren_close :: suffix) ->
  ~ In paren_open name ->
  ~ In paren_close suffix ->
  ascii_only inner ->
  In arg (trimmed_fields inner) ->
  begins_with (lit "std::__exception_ptr") arg ->
  add_func demangle elf mangled = Ok elf.
Proof.
  intros Hd Hb Hn Hs Ha Hin Hbeg.
  rewrite add_func_run. unfold record_of.
  rewrite Hd, demangle_arguments_plain, split_cpp_args_ascii by assumption.
  assert (E : rejectedb
                (success_record mangled
                   (name ++ paren_open :: inner ++ paren_close :: suffix)
                   (trimmed_fields inner)) = true).
  { apply rejectedb_spec. left. exists arg. split; assumption. }
  now rewrite E.
Qed.

Lemma exception_pointer_argument_is_dropped_witness :
  add_func
    (fun s => if str_eqb s (lit "_Z7rethrowiNSt15__exception_ptr13exception_ptrE")
              then Some (lit "rethrow(int, std::__exception_ptr::exception_ptr)")
              else None)
    {| functions := []; version := lit "2.2074" |}
    (lit "_Z7rethrowiNSt15__exception_ptr13exception_ptrE") =
    Ok {| functions := []; version := lit "2.2074" |}.
Proof.
  apply (exception_pointer_argument_is_dropped _ _ _
           (lit "rethrow") (lit "int, std::__exception_ptr::exception_ptr")
           [] (lit "std::__exception_ptr::exception_ptr")).
  - vm_compute; reflexivity.
  - cbn; intuition discriminate.
  - cbn; intuition discriminate.
  - cbn; tauto.
  - repeat constructor.
  - right. left. vm_compute; reflexivity.
  - exists (lit "::exception_ptr"). reflexivity.
Defined.

(** ** A Latin-1 character in ASCII text *)

Lemma cont_ascii (x : N) : (x < 128)%N -> Bytearray.cont x = false.
Proof.
  intros H. unfold Bytearray.cont.
  assert (E : (0x80 <=? x)%N = false) by (apply N.leb_gt; lia).
  now rewrite E.
Qed.

Lemma between_ascii (lo x hi : N) :
  (x < 128)%N -> (128 <= lo)%N -> Bytearray.between lo x hi = false.
Proof.
  intros H Hlo. unfold Bytearray.between.
  assert (E : (lo <=? x)%N = false) by (apply N.leb_gt; lia).
  now rewrite E.
Qed.

Lemma utf8_lone_byte (c : N) (b2 : list N) :
  (128 <= c)%N -> ascii_only b2 -> Bytearray.utf8 (c :: b2) = None.
Proof.
  intros Hc Hb2. cbn [Bytearray.utf8].
  assert (E : (c <? 0x80)%N = false) by (apply N.ltb_ge; lia).
  rewrite E.
  destruct (Bytearray.between 0xC2 c 0xDF).
  { destruct Hb2 as [|x b2 Hx _]; [reflexivity|].
    now rewrite cont_ascii. }
  destruct (Bytearray.between 0xE0 c 0xEF).
  { destruct Hb2 as [|x b2 Hx Hb2]; [reflexivity|].
    destruct Hb2 as [|y b2 Hy _]; [reflexivity|].
    rewrite between_ascii; [reflexivity|exact Hx|].
    destruct (c =? 0xE0)%N; lia. }
  destruct (Bytearray.between 0xF0 c 0xF4); [|reflexivity].
  destruct Hb2 as [|x b2 Hx Hb2]; [reflexivity|].
  destruct Hb2 as [|y b2 Hy Hb2]; [reflexivity|].
  destruct Hb2 as [|z b2 Hz _]; [reflexivity|].
  rewrite between_ascii; [reflexivity|exact Hx|].
  destruct (c =? 0xF0)%N; lia.
Qed.

Lemma decode_isolated (c : N) (b1 b2 : list N) :
  (128 <= c)%N -> ascii_only b1 -> ascii_only b2 ->
  Bytearray.decode (b1 ++ c :: b2) = Raise UnicodeDecodeError.
Proof.
  intros Hc Hb1 Hb2. unfold Bytearray.decode.
  assert (E : Bytearray.utf8 (b1 ++ c :: b2) = None).
  { induction Hb1 as [|x b1 Hx _ IH]; [now apply utf8_lone_byte|].
    cbn [app Bytearray.utf8]. apply N.ltb_lt in Hx. now rewrite Hx, IH. }
  now rewrite E.
Qed.

Lemma loop_app (p q : str) :
  forall st,
    Splitter.loop st (p ++ q) =
      (st' <- Splitter.loop st p ;; Splitter.loop st' q).
Proof.
  induction p as [|d p IH]; intros st; [reflexivity|].
  cbn [app Splitter.loop].
  destruct (Splitter.step st d); cbn [rbind]; [apply IH|reflexivity].
Qed.

(** Once the buffer holds the character between ASCII bytes, the rest of
    the text cannot be read to a result. *)
Lemma loop_poisoned (c : N) (post : str) :
  (128 <= c)%N -> (c < 256)%N -> ascii_only post ->
  forall a b1 b2 d,
    ascii_only b1 -> ascii_only b2 ->
    (st <- Splitter.loop
             {| Splitter.args := a; Splitter.b := b1 ++ c :: b2;
                Splitter.followed_by := d |} post ;;
     match Splitter.b st with
     | [] => Ok (Splitter.args st)
     | _ :: _ =>
         s <- Bytearray.decode (Splitter.b st) ;;
         Ok (Splitter.args st ++ [strip s])
     end) = Raise UnicodeDecodeError.
Proof.
  intros Hc Hc' Hpost.
  induction Hpost as [|x post Hx _ IH]; intros a b1 b2 d Hb1 Hb2.
  - cbn [Splitter.loop rbind Splitter.b Splitter.args].
    rewrite decode_isolated by assumption.
    destruct b1; reflexivity.
  - cbn [Splitter.loop]. unfold Splitter.step, Splitter.ord.
    cbn [Splitter.args Splitter.b Splitter.followed_by].
    assert (Happ : Bytearray.append (b1 ++ c :: b2) x =
                   Ok (b1 ++ c :: (b2 ++ [x]))).
    { rewrite append_ascii by assumption. now rewrite <- app_assoc. }
    assert (Hb2' : ascii_only (b2 ++ [x]))
      by (apply Forall_app; split; [assumption|repeat constructor; assumption]).
    rewrite Happ, decode_isolated by assumption. cbn [rbind].
    destruct (x =? Splitter.lt)%N; [now apply IH|].
    destruct (x =? Splitter.gt)%N; [now apply IH|].
    destruct ((x =? Splitter.comma)%N && (d =? 0)%Z); [reflexivity|].
    now apply IH.
Qed.

(** X20. ASCII text with one character of the range U+0080..U+00FF in it
    is never split: wherever the character stands, the splitter raises
    [UnicodeDecodeError], because the byte it writes for the character is
    not UTF-8 between ASCII bytes. *)
Theorem split_cpp_args_refuses_latin1 (pre post : str) (c : char) :
  (128 <= c)%N -> (c < 256)%N ->
  ascii_only pre -> ascii_only post ->
  split_cpp_args (pre ++ c :: post) = Raise UnicodeDecodeError.
Proof.
  intros Hc Hc' Hpre Hpost. unfold split_cpp_args.
  rewrite loop_app, loop_ascii by (assumption || constructor).
  cbn [rbind Splitter.loop]. unfold Splitter.step at 1, Splitter.ord.
  cbn [Splitter.args Splitter.b Splitter.followed_by].
  assert (H1 : (c =? Splitter.lt)%N = false)
    by (apply N.eqb_neq; unfold Splitter.lt; lia).
  assert (H2 : (c =? Splitter.gt)%N = false)
    by (apply N.eqb_neq; unfold Splitter.gt; lia).
  assert (H3 : (c =? Splitter.comma)%N = false)
    by (apply N.eqb_neq; unfold Splitter.comma; lia).
  assert (H4 : (c <? 256)%N = true) by (apply N.ltb_lt; lia).
  unfold Bytearray.append. rewrite H1, H2, H3, H4. cbn [andb rbind].
  apply loop_poisoned; try assumption; [|constructor].
  rewrite prepend_nil by apply top_level_fields_nonempty.
  pose proof (top_level_fields_ascii pre 0 Hpre) as Hall.
  pose proof (top_level_fields_nonempty 0 pre) as Hne.
  rewrite (app_removelast_last [] Hne) in Hall.
  apply Forall_app in Hall as [_ Hl]. now inversion Hl.
Qed.

Lemma split_cpp_args_refuses_latin1_witness :
  split_cpp_args (lit "int, Caf" ++ [233%N] ++ lit " const&") =
    Raise UnicodeDecodeError.
Proof.
  apply (split_cpp_args_refuses_latin1 (lit "int, Caf") (lit " const&") 233%N).
  - cbv; discriminate.
  - reflexivity.
  - repeat constructor.
  - repeat constructor.
Defined.
